(** * techdebt: the leak lessons and the loan model, embedded and verified

    The repository is a set of independent Go lessons (package [lesson]),
    each pairing a leaking "Bad" variant with a "Good" one, and a small
    [loan] package.  Every Go function the properties below talk about is
    translated into a Rocq function:

    - pointer receivers and package-level variables become explicit state;
      a field of map type is the nil map or a table made by [make];
    - tickers, files and response bodies are handles whose acquisition
      and release are recorded in an event trace; timers are recorded
      there too, but a timer is one-shot and expires by itself;
    - [defer] is a per-call stack of pending calls that runs, last first,
      when the call returns (and never when the call parks for ever);
    - what the Go runtime or the outside world decides (the case a
      [select] picks, whether [os.OpenFile] fails, the order in which a
      map is ranged over, the reading of [time.Now]) is an explicit
      argument. *)

From Stdlib Require Import ZArith List Bool Lia.
From Stdlib Require Import Floats.SpecFloat.
From stdpp Require Import base option list gmap strings pretty fin_maps fin_sets.

Local Open Scope Z_scope.

(* [set_solver] clears hypotheses by name as it goes. *)
#[local] Set Warnings "-clear-no-such-hyp".

(* ===================================================================== *)
(** * Cancellation tokens                                                 *)
(* ===================================================================== *)

Module Token.

(** Modelled from the spec: the Cancellation Token.  The lessons obtain
    theirs from Go's [context.WithCancel] and [context.WithTimeout],
    whose implementation belongs to the Go standard library and is not
    part of the repository; the definitions follow the contract of the
    specification: a token is [active] or [cancelled], it may carry an
    intrinsic deadline, [cancel] may be called any number of times, and
    [isCancelled] reads the state. *)
Inductive state := active | cancelled.

Record t := mk { st : state; deadline : option Z }.

(** Modelled from the spec: [new(timeout?) -> Token]; a fresh token is
    active, and a timeout gives it its deadline. *)
Definition new (timeout : option Z) (now : Z) : t :=
  mk active (option_map (fun d => now + d) timeout).

(** Modelled from the spec: [cancel()], idempotent, a pure signal that
    cannot fail. *)
Definition cancel (tk : t) : t :=
  match st tk with
  | cancelled => tk
  | active => mk cancelled (deadline tk)
  end.

(** Modelled from the spec: [isCancelled() -> bool]. *)
Definition isCancelled (tk : t) : bool :=
  match st tk with cancelled => true | active => false end.

(** Modelled from the spec: cancellation and timeout are one signal
    path; when the clock passes the intrinsic deadline the token is
    cancelled. *)
Definition expire (now : Z) (tk : t) : t :=
  match deadline tk with
  | Some d => if d <=? now then cancel tk else tk
  | None => tk
  end.

(** What a caller can do with a token it was handed. *)
Inductive op :=
| Cancel
| Clock (now : Z)
| IsCancelled.

(** One operation: the new state and, for a query, its answer. *)
Definition step (tk : t) (o : op) : t * option bool :=
  match o with
  | Cancel => (cancel tk, None)
  | Clock now => (expire now tk, None)
  | IsCancelled => (tk, Some (isCancelled tk))
  end.

(** A whole history of operations, by any callers in any order: the
    final state and the answers of the queries, oldest first. *)
Fixpoint run (tk : t) (ops : list op) : t * list bool :=
  match ops with
  | [] => (tk, [])
  | o :: ops' =>
      let '(tk', ans) := step tk o in
      let '(tk'', rest) := run tk' ops' in
      (tk'', match ans with Some b => b :: rest | None => rest end)
  end.

End Token.

(* ===================================================================== *)
(** * Package loan (the refactored variant)                               *)
(* ===================================================================== *)

Module loan.

(** Go's [float64]: IEEE 754 binary64 values, compared with the
    comparisons of the standard (a NaN compares false with everything). *)
Definition float64 := spec_float.
Definition f64_zero : float64 := S754_zero false.

Definition error := string.

Definition StatusPending := "pending".
Definition StatusApproved := "approved".
Definition StatusRejected := "rejected".
Definition StatusDefault := "default".

Record Loan := mkLoan {
  ID : string;
  Amount : float64;
  Status : string;
  InterestRate : float64;
  CustomerID : string;
  CreatedAt : Z
}.

(** [errors.New] *)
Definition errors_New (msg : string) : error := msg.

(** [func (l *Loan) Validate() error]; [None] is Go's [nil]. *)
Definition Validate (l : Loan) : option error :=
  if SFleb (Amount l) f64_zero then
    Some (errors_New "loan amount must be positive")
  else if String.eqb (CustomerID l) "" then
    Some (errors_New "customer ID is required")
  else if SFltb (InterestRate l) f64_zero then
    Some (errors_New "interest rate cannot be negative")
  else None.

(** [func (l *Loan) Approve() error]: the receiver is a pointer, so the
    loan after the call is returned next to the error. *)
Definition Approve (l : Loan) : option error * Loan :=
  match Validate l with
  | Some err => (Some err, l)
  | None =>
      (None,
       mkLoan (ID l) (Amount l) StatusApproved (InterestRate l)
              (CustomerID l) (CreatedAt l))
  end.

(** ** Interest *)

(** binary64: 53 bits of precision, exponents below 1024. *)
Definition prec : Z := 53.
Definition emax : Z := 1024.

(** The constants of [CalculateInterest] as Go converts them to
    [float64]: 10000 is exact, 0.15 and 0.12 are the nearest binary64
    values (0x3FC3333333333333 and 0x3FBEB851EB851EB8). *)
Definition f64_10000 : float64 := S754_finite false 5497558138880000 (-39).
Definition f64_0_15 : float64 := S754_finite false 5404319552844595 (-55).
Definition f64_0_12 : float64 := S754_finite false 8646911284551352 (-56).

(** [func (l *Loan) CalculateInterest() float64] *)
Definition CalculateInterest (l : Loan) : float64 :=
  if SFltb f64_10000 (Amount l) then SFmul prec emax (Amount l) f64_0_15
  else SFmul prec emax (Amount l) f64_0_12.

(** ** The service *)

(** [LoanRepository], an interface: any implementation, over any state
    [S] of its own.  A method gets the context and may fail; [Save] and
    [Update] are handed a pointer to the loan and may write to it. *)
Record LoanRepository (S : Type) := mkLoanRepository {
  Save : nat -> Loan -> S -> option error * Loan * S;
  FindByID : nat -> string -> S -> option Loan * option error * S;
  Update : nat -> Loan -> S -> option error * Loan * S
}.
Arguments Save {S} _ _ _ _.
Arguments FindByID {S} _ _ _ _.
Arguments Update {S} _ _ _ _.

Record LoanService (S : Type) := mkLoanService { repo : LoanRepository S }.
Arguments repo {S} _.

Definition NewLoanService {S} (repo : LoanRepository S) : LoanService S :=
  mkLoanService S repo.

(** [func (s *LoanService) ProcessLoanApplication(ctx, loan) error]: the
    error, the loan behind the pointer and the state of the repository
    after the call. *)
Definition ProcessLoanApplication {S} (s : LoanService S) (ctx : nat)
    (l : Loan) (st : S) : option error * Loan * S :=
  match Validate l with
  | Some err => (Some err, l, st)
  | None => Save (repo s) ctx l st
  end.

End loan.

(* ===================================================================== *)
(** * Package loan, the initial implementation                            *)
(* ===================================================================== *)

Module loan_initial.

Record Loan := mkLoan {
  ID : string;
  Amount : loan.float64;
  Status : string;
  InterestRate : loan.float64;
  CustomerID : string;
  CreatedAt : Z
}.

(** [func (l *Loan) Approve() error]: no check at all. *)
Definition Approve (l : Loan) : option loan.error * Loan :=
  (None,
   mkLoan (ID l) (Amount l) "approved" (InterestRate l) (CustomerID l)
          (CreatedAt l)).

(** [func (l *Loan) CalculateInterest() float64], with its magic
    numbers. *)
Definition CalculateInterest (l : Loan) : loan.float64 :=
  if SFltb loan.f64_10000 (Amount l)
  then SFmul loan.prec loan.emax (Amount l) loan.f64_0_15
  else SFmul loan.prec loan.emax (Amount l) loan.f64_0_12.

End loan_initial.

(* ===================================================================== *)
(** * The Go runtime, as far as the lessons use it                        *)
(* ===================================================================== *)

Module runtime.

Definition handle := nat.
Definition error := string.

(** What a lesson does to the outside world, oldest event first. *)
Inductive event :=
| EvNewTicker (h : handle) (period : Z)   (* time.NewTicker *)
| EvNewTimer (h : handle) (d : Z)         (* time.NewTimer *)
| EvStop (h : handle)                     (* Ticker.Stop, Timer.Stop *)
| EvOpenFile (h : handle) (name : string) (* os.OpenFile, successful *)
| EvHttpGet (h : handle) (url : string)   (* http.Get, successful: resp.Body *)
| EvClose (h : handle)                    (* File.Close, Body.Close *)
| EvWrite (h : handle) (s : string)       (* File.WriteString, successful *)
| EvPrint (s : string)                    (* fmt.Println, fmt.Printf *)
| EvLog (s : string)                      (* log.Println, log.Printf *)
| EvGo (fn : string).                     (* a go statement *)

(** The handles an event acquires and releases.  A ticker, a file and a
    response body stay acquired until the program releases them.  A
    [time.Timer] is not such a resource: it fires once and is expired
    from then on, whether or not it is ever stopped, so creating one
    acquires nothing that only the program can release. *)
Definition acquired (e : event) : option handle :=
  match e with
  | EvNewTicker h _ | EvOpenFile h _ | EvHttpGet h _ => Some h
  | _ => None
  end.

Definition released (e : event) : option handle :=
  match e with
  | EvStop h | EvClose h => Some h
  | _ => None
  end.

Definition live_step (s : gset handle) (e : event) : gset handle :=
  match acquired e, released e with
  | Some h, _ => {[h]} ∪ s
  | None, Some h => s ∖ {[h]}
  | None, None => s
  end.

(** The handles acquired and not yet released by the program after a
    trace. *)
Definition live (tr : list event) : gset handle := foldl live_step ∅ tr.
Arguments live : simpl never.

Record World := mkWorld {
  next : handle;                 (* supply of fresh handles and token ids *)
  trace : list event;
  tokens : gmap nat Token.t      (* the contexts created so far *)
}.

Definition World0 : World := mkWorld 0%nat [] ∅.

Definition emit_w (e : event) (w : World) : World :=
  mkWorld (next w) (trace w ++ [e]) (tokens w).

(** [cancel()] of the context [k]; on an unknown id nothing happens. *)
Definition cancel_w (k : nat) (w : World) : World :=
  mkWorld (next w) (trace w) (alter Token.cancel k (tokens w)).

(** ** Calls and [defer] *)

(** The calls a lesson defers. *)
Inductive deferral :=
| DStop (h : handle)       (* defer ticker.Stop(), defer timer.Stop() *)
| DClose (h : handle)      (* defer file.Close(), defer resp.Body.Close() *)
| DCancel (k : nat).       (* defer cancel() *)

Definition run_deferral (w : World) (d : deferral) : World :=
  match d with
  | DStop h => emit_w (EvStop h) w
  | DClose h => emit_w (EvClose h) w
  | DCancel k => cancel_w k w
  end.

(** The frame of one call: the world and the calls deferred so far, the
    most recent first. *)
Record Frame := mkFrame { world : World; deferred : list deferral }.

(** A piece of a function body: a state transformer over its frame. *)
Definition Go (A : Type) : Type := Frame -> A * Frame.

Definition ret {A} (a : A) : Go A := fun f => (a, f).

Definition bind {A B} (m : Go A) (k : A -> Go B) : Go B :=
  fun f => let '(a, f') := m f in k a f'.

Declare Scope go_scope.
Delimit Scope go_scope with go.
Notation "x <- m ;; k" := (bind m (fun x => k))
  (at level 100, m at next level, right associativity) : go_scope.
Notation "m ;; k" := (bind m (fun _ => k))
  (at level 100, right associativity) : go_scope.

Definition emit (e : event) : Go unit :=
  fun f => (tt, mkFrame (emit_w e (world f)) (deferred f)).

(** A fresh handle. *)
Definition fresh : Go handle :=
  fun f =>
    let w := world f in
    (next w, mkFrame (mkWorld (S (next w)) (trace w) (tokens w)) (deferred f)).

Definition defer (d : deferral) : Go unit :=
  fun f => (tt, mkFrame (world f) (d :: deferred f)).

(** How a call ends: it returns, or it is parked at a blocking point
    (a [select] with no ready case) and has not returned. *)
Inductive outcome (A : Type) :=
| Returned (a : A)
| Parked.
Arguments Returned {A} a.
Arguments Parked {A}.

(** A call runs its body in a fresh frame; when the body returns, the
    deferred calls run, last deferred first.  A parked body has not
    returned: its deferred calls have not run. *)
Definition call {A} (body : Go (outcome A)) (w : World) : outcome A * World :=
  let '(r, f) := body (mkFrame w []) in
  match r with
  | Returned a => (Returned a, foldl run_deferral (world f) (deferred f))
  | Parked => (Parked, world f)
  end.

(** ** The library calls of the lessons *)

Definition time_Second : Z := 1000000000.
Definition time_Minute : Z := 60 * time_Second.
Definition time_Hour : Z := 60 * time_Minute.

Definition time_NewTicker (d : Z) : Go handle :=
  (h <- fresh ;; emit (EvNewTicker h d) ;; ret h)%go.

(** [time.NewTimer]: a one-shot timer; its channel delivers one value,
    when the timer fires, and nothing after it. *)
Definition time_NewTimer (d : Z) : Go handle :=
  (h <- fresh ;; emit (EvNewTimer h d) ;; ret h)%go.

(** [context.WithCancel(context.Background())]: a new active token; the
    returned [cancel] function is [cancel_w] at the token's id. *)
Definition context_WithCancel : Go nat :=
  fun f =>
    let w := world f in
    (next w,
     mkFrame (mkWorld (S (next w)) (trace w)
                      (<[next w := Token.new None 0]> (tokens w)))
             (deferred f)).

(** [context.WithTimeout(context.Background(), d)] at clock reading [now]. *)
Definition context_WithTimeout (d now : Z) : Go nat :=
  fun f =>
    let w := world f in
    (next w,
     mkFrame (mkWorld (S (next w)) (trace w)
                      (<[next w := Token.new (Some d) now]> (tokens w)))
             (deferred f)).

(** [<-ctx.Done()] can proceed exactly when the token is cancelled. *)
Definition ctx_Done (k : nat) (w : World) : bool :=
  match tokens w !! k with
  | Some tk => Token.isCancelled tk
  | None => false
  end.

(** [os.OpenFile]: the operating system decides whether it fails. *)
Definition os_OpenFile (name : string) (fails : option error)
  : Go (handle + error) :=
  match fails with
  | Some err => ret (inr err)
  | None => (h <- fresh ;; emit (EvOpenFile h name) ;; ret (inl h))%go
  end.

Definition File_WriteString (file : handle) (s : string) (fails : option error)
  : Go (option error) :=
  match fails with
  | Some err => ret (Some err)
  | None => (emit (EvWrite file s) ;; ret None)%go
  end.

(** [http.Get]: on success the response, whose body is a handle that
    holds the connection until it is closed. *)
Definition http_Get (url : string) (fails : option error)
  : Go (handle + error) :=
  match fails with
  | Some err => ret (inr err)
  | None => (h <- fresh ;; emit (EvHttpGet h url) ;; ret (inl h))%go
  end.

(** [io.ReadAll(resp.Body)]: the bytes read, or the error of the read. *)
Definition io_ReadAll (body : handle) (res : list Byte.byte + error)
  : Go (list Byte.byte + error) := ret res.

Definition go_stmt (fn : string) : Go unit := emit (EvGo fn).

(** [select {}]: no case can ever proceed. *)
Definition select_forever {A} : Go (outcome A) := ret Parked.

(** ** [select] with a receive case and a [<-ctx.Done()] case *)

Inductive selected :=
| Case1 (v : Z)     (* the receive proceeded and delivered [v] *)
| Case2             (* [<-ctx.Done()] proceeded *)
| Blocked.          (* no case can proceed *)

(** Go picks among the cases that can proceed; when both can, the
    choice is the runtime's ([pick1]). *)
Definition select2 (recv : option Z) (done : bool) (pick1 : bool) : selected :=
  match recv, done with
  | Some v, true => if pick1 then Case1 v else Case2
  | Some v, false => Case1 v
  | None, true => Case2
  | None, false => Blocked
  end.

(** What the rest of the program and the runtime do around one
    evaluation of a [select]. *)
Record round := mkRound {
  cancel_first : bool;   (* the token is cancelled (by its owner, or by
                            its deadline) before the select is evaluated *)
  recv : option Z;       (* the value waiting on the receive case *)
  pick1 : bool           (* the runtime's choice when both are ready *)
}.

(** A round for a receive from a channel that has nothing more to
    deliver, such as the channel of a timer whose value was received. *)
Definition spent (r : round) : round :=
  mkRound (cancel_first r) None (pick1 r).

Definition deliver (k : nat) (r : round) : Go unit :=
  fun f =>
    (tt, mkFrame (if cancel_first r then cancel_w k (world f) else world f)
                 (deferred f)).

Definition select_round (k : nat) (r : round) : Go selected :=
  fun f => (select2 (recv r) (ctx_Done k (world f)) (pick1 r), f).

End runtime.

(* ===================================================================== *)
(** * Go slices of int                                                    *)
(* ===================================================================== *)

Module slices.

(** The heap of backing arrays: array [a] is the [a]-th list. *)
Abbreviation heap := (list (list Z)).

(** A slice header: backing array, offset of its first element in the
    array, length and capacity. *)
Record slice := mkSlice { arr : nat; off : Z; len : Z; cap : Z }.

(** The elements a slice shows. *)
Definition elems (h : heap) (s : slice) : list Z :=
  take (Z.to_nat (len s)) (drop (Z.to_nat (off s)) (default [] (h !! arr s))).

(** [make([]int, n)]: a new zeroed array and a slice of all of it. *)
Definition make (n : Z) (h : heap) : slice * heap :=
  (mkSlice (length h) 0 n n, h ++ [replicate (Z.to_nat n) 0]).

(** [s[lo:]]; [None] is the run-time panic for an index out of range. *)
Definition reslice_from (s : slice) (lo : Z) : option slice :=
  if (0 <=? lo) && (lo <=? len s)
  then Some (mkSlice (arr s) (off s + lo) (len s - lo) (cap s - lo))
  else None.

(** Overwrite array [a] from position [i] with [vs]. *)
Definition store (a : nat) (i : nat) (vs : list Z) (h : heap) : heap :=
  match h !! a with
  | Some old => <[a := take i old ++ vs ++ drop (i + length vs)%nat old]> h
  | None => h
  end.

(** [copy(dst, src)]: copies min(len(dst), len(src)) elements and
    returns that number. *)
Definition copy (dst src : slice) (h : heap) : Z * heap :=
  let n := Z.min (len dst) (len src) in
  (n, store (arr dst) (Z.to_nat (off dst)) (take (Z.to_nat n) (elems h src)) h).

End slices.

(* ===================================================================== *)
(** * Package lesson                                                      *)
(* ===================================================================== *)

Module lesson.
Import runtime.

(** The newline that [fmt.Println] and [log.Println] append. *)
Definition nl : string := String (Ascii.ascii_of_nat 10) EmptyString.

Definition fmt_Println (s : string) : Go unit := emit (EvPrint (s +:+ nl)).
Definition fmt_Printf (s : string) : Go unit := emit (EvPrint s).
Definition log_Println (s : string) : Go unit := emit (EvLog (s +:+ nl)).
Definition log_Printf (s : string) : Go unit := emit (EvLog s).

(** A call to another function of the package from inside a body; a
    callee that parks leaves its caller parked too. *)
Definition invoke {A} (fn : World -> outcome A * World) : Go (outcome A) :=
  fun f => let '(r, w) := fn (world f) in (r, mkFrame w (deferred f)).

(** What a call evaluates to when it may panic. *)
Inductive result (A : Type) :=
| Ok (a : A)
| Panic (msg : string).
Arguments Ok {A} a.
Arguments Panic {A} msg.

(** ** largeobject.go *)

Record LargeObject := mkLargeObject { data : list Byte.byte }.

Definition ClosureLeak : World -> outcome unit * World :=
  call (
    let obj := mkLargeObject (replicate (Z.to_nat (1024 * 1024)) Byte.x00) in
    let handler := fmt_Println (pretty (Z.of_nat (length (data obj)))) in
    handler ;;
    ret (Returned tt))%go.

(** ** goroutine.go *)

Record Leak := mkLeak { id : Z; name : string; birthday : Z }.

(** What one tick of the Bad goroutine reads from outside: the two
    [rand.Intn(1000)] draws and [time.Now()]. *)
Record tick := mkTick { rand1 : Z; rand2 : Z; tick_now : Z }.

Definition chunk : string :=
  "aaaaaaaaaaaaaaaaaaaaaaaaaaaaaaaaaaaaaaaaaaaaaaaaaaaaaaaaaaaaaaaaaaaaaaaaaaaaaaaaaaaaaaaaaaaaaaaaaaaaaaaaaaaaaaaaaaaaaaaaaaaaaaaaaaaaaaaaaaaaaaaaaaaaaaaaaaaaaaaaaaaaaaaaaaaaaaaaaaaaaaaaaaaaaaaa".

(** The loop of the goroutine of [GoroutineLeak]: its [select] has the
    single case [<-ticker.C], so it advances once per delivered tick and
    waits at the [select] when the ticks run out.  [leakSlice] is the
    package-level slice. *)
Fixpoint GoroutineLeak_loop (ticker : handle) (ticks : list tick)
    (leakSlice : list Leak) (largeString : string)
  : Go (outcome unit * list Leak) :=
  match ticks with
  | [] => ret (Parked, leakSlice)
  | t :: ticks' =>
      let newLeak :=
        mkLeak (rand1 t) ("Leak " +:+ pretty (rand2 t)) (tick_now t) in
      let leakSlice := leakSlice ++ [newLeak] in
      let largeString := (largeString +:+ chunk) in
      (log_Printf (nl +:+ "Working... " +:+ pretty (Z.of_nat (length leakSlice))) ;;
       r <- invoke ClosureLeak ;;
       match r with
       | Parked => ret (Parked, leakSlice)
       | Returned _ => GoroutineLeak_loop ticker ticks' leakSlice largeString
       end)%go
  end.

(** [GoroutineLeak.func1], the Bad goroutine. *)
Definition GoroutineLeak_func1 (ticks : list tick) (leakSlice : list Leak)
    (w : World) : (outcome unit * list Leak) * World :=
  let '(r, f) :=
    (ticker <- time_NewTicker time_Second ;;
     GoroutineLeak_loop ticker ticks leakSlice "")%go (mkFrame w []) in
  match r with
  | (Returned a, l) => ((Returned a, l), foldl run_deferral (world f) (deferred f))
  | (Parked, l) => ((Parked, l), world f)
  end.

Definition GoroutineLeak : World -> outcome unit * World :=
  call (go_stmt "GoroutineLeak.func1" ;; select_forever)%go.

(** The loop of the Good goroutine: one [select] per round. *)
Fixpoint GoroutineLeakWithContext_loop (ctx : nat) (ticker : handle)
    (sched : list round) : Go (outcome unit) :=
  match sched with
  | [] => ret Parked
  | r :: sched' =>
      (deliver ctx r ;;
       s <- select_round ctx r ;;
       match s with
       | Case1 _ => log_Println "Working..." ;;
                    GoroutineLeakWithContext_loop ctx ticker sched'
       | Case2 => ret (Returned tt)
       | Blocked => GoroutineLeakWithContext_loop ctx ticker sched'
       end)%go
  end.

(** [GoroutineLeakWithContext.func1], the Good goroutine; [ctx] is the
    context it captured. *)
Definition GoroutineLeakWithContext_func1 (ctx : nat) (sched : list round)
  : World -> outcome unit * World :=
  call (ticker <- time_NewTicker time_Second ;;
        defer (DStop ticker) ;;
        GoroutineLeakWithContext_loop ctx ticker sched)%go.

Definition GoroutineLeakWithContext : World -> outcome unit * World :=
  call (ctx <- context_WithCancel ;;
        defer (DCancel ctx) ;;
        go_stmt "GoroutineLeakWithContext.func1" ;;
        select_forever)%go.

(** ** time.go *)

(** [TimerLeak.func1]: [<-timer.C] and a print.  The closure captures
    the variable [timer], so [timer] here is the timer that variable
    holds when the goroutine reads it; [fired] is what its channel
    delivers, if anything. *)
Definition TimerLeak_func1 (timer : handle) (fired : option Z)
  : World -> outcome unit * World :=
  call (match fired with
        | None => ret Parked
        | Some _ => fmt_Println "Done!" ;; ret (Returned tt)
        end)%go.

(** The loop of [TimerLeak.func2]: one [select] per round.  [fired]
    says whether this goroutine has already received the value of the
    timer; the timer is never reset, so after that its channel is
    [spent] whatever the round offers. *)
Fixpoint TimerLeak_func2_loop (ctx : nat) (timer : handle) (fired : bool)
    (sched : list round) : Go (outcome unit) :=
  match sched with
  | [] => ret Parked
  | r :: sched' =>
      let r := if fired then spent r else r in
      (deliver ctx r ;;
       s <- select_round ctx r ;;
       match s with
       | Case1 _ => fmt_Println "Good:Done!" ;;
                    TimerLeak_func2_loop ctx timer true sched'
       | Case2 => ret (Returned tt)
       | Blocked => TimerLeak_func2_loop ctx timer fired sched'
       end)%go
  end.

Definition TimerLeak_func2 (ctx : nat) (timer : handle) (sched : list round)
  : World -> outcome unit * World :=
  call (TimerLeak_func2_loop ctx timer false sched).

Definition TimerLeak : World -> outcome unit * World :=
  call (ctx <- context_WithCancel ;;
        defer (DCancel ctx) ;;
        timer <- time_NewTimer time_Hour ;;
        go_stmt "TimerLeak.func1" ;;
        timer <- time_NewTimer time_Second ;;
        defer (DStop timer) ;;
        go_stmt "TimerLeak.func2" ;;
        select_forever)%go.

(** ** The channel lesson *)

(** [ChannelLeak.func1], Bad: a bare receive. *)
Definition ChannelLeak_func1 (received : option Z)
  : World -> outcome unit * World :=
  call (match received with
        | None => ret Parked
        | Some val => fmt_Println (pretty val) ;; ret (Returned tt)
        end)%go.

(** The single [select] of [ChannelLeak.func2]: it is evaluated again
    in the next round only when no case could proceed. *)
Fixpoint ChannelLeak_func2_select (ctx : nat) (sched : list round)
  : Go (outcome unit) :=
  match sched with
  | [] => ret Parked
  | r :: sched' =>
      (deliver ctx r ;;
       s <- select_round ctx r ;;
       match s with
       | Case1 val => fmt_Println (pretty val) ;; ret (Returned tt)
       | Case2 => ret (Returned tt)
       | Blocked => ChannelLeak_func2_select ctx sched'
       end)%go
  end.

(** [ChannelLeak.func2], Good. *)
Definition ChannelLeak_func2 (ctx : nat) (sched : list round)
  : World -> outcome unit * World :=
  call (ChannelLeak_func2_select ctx sched).

Definition ChannelLeak (now : Z) : World -> outcome unit * World :=
  call (go_stmt "ChannelLeak.func1" ;;
        ctx <- context_WithTimeout time_Second now ;;
        defer (DCancel ctx) ;;
        go_stmt "ChannelLeak.func2" ;;
        ret (Returned tt))%go.

(** ** map.go *)

(** A [time.Duration] is an int64 count of nanoseconds. *)
Definition minDuration : Z := - 2 ^ 63.
Definition maxDuration : Z := 2 ^ 63 - 1.

(** [t.Sub(u)] on instants counted in nanoseconds: the difference,
    saturated to the range of a Duration as [time.Time.Sub] does. *)
Definition Time_Sub (t u : Z) : Z :=
  Z.max minDuration (Z.min maxDuration (t - u)).

Record CacheItem := mkCacheItem { value : list Byte.byte; timestamp : Z }.

(** A field of map type holds a Go map value: the nil map ([None]), as
    in a zero-value struct, or a table that [make] allocated.  Reading,
    [range] and [delete] treat the nil map as a map without entries. *)
Definition map_entries {V} (m : option (gmap string V)) : gmap string V :=
  default ∅ m.

(** [m[key] = v]: the assignment to an entry of the nil map panics. *)
Definition map_assign {V} (key : string) (v : V) (m : option (gmap string V))
  : result unit * option (gmap string V) :=
  match m with
  | None => (Panic "assignment to entry in nil map", None)
  | Some tbl => (Ok tt, Some (<[key := v]> tbl))
  end.

(** [BetterCache]; [mu] is the embedded [sync.RWMutex], [true] while it
    is held for writing; [items_map] is the field [items]. *)
Record BetterCache := mkBetterCache {
  mu : bool;
  items_map : option (gmap string CacheItem);
  ttl : Z
}.

(** The entries of [c.items]. *)
Definition items (c : BetterCache) : gmap string CacheItem :=
  map_entries (items_map c).

(** [c.Lock()]: [None] when the caller has to wait for the holder. *)
Definition Lock (c : BetterCache) : option BetterCache :=
  if mu c then None else Some (mkBetterCache true (items_map c) (ttl c)).

(** [c.Unlock()]: [None] is Go's fatal error on a mutex that is not
    held. *)
Definition Unlock (c : BetterCache) : option BetterCache :=
  if mu c then Some (mkBetterCache false (items_map c) (ttl c)) else None.

Definition set_items (m : option (gmap string CacheItem)) (c : BetterCache)
  : BetterCache :=
  mkBetterCache (mu c) m (ttl c).

(** [func (c *BetterCache) Set(key, value)], with the reading of
    [time.Now()].  The deferred [Unlock] runs when the call ends, also
    when the assignment panics: the result is what the call evaluates to
    and the cache it leaves. *)
Definition BetterCache_Set (key : string) (val : list Byte.byte) (now : Z)
    (c : BetterCache) : option (result unit * BetterCache) :=
  c ← Lock c;
  let '(r, m) := map_assign key (mkCacheItem val now) (items_map c) in
  c ← Unlock (set_items m c);
  Some (r, c).

(** The body of [for k, v := range c.items]: the pair is the entry the
    range produced. *)
Definition Cleanup_visit (now ttl : Z) (m : gmap string CacheItem)
    (k : string) (v : CacheItem) : gmap string CacheItem :=
  if ttl <? Time_Sub now (timestamp v) then delete k m else m.

(** The range statement.  Go ranges over the entries of the map in an
    order of the runtime's choosing, [order]; an entry that was removed
    before the range reached it is not produced. *)
Definition Cleanup_range (now ttl : Z) (order : list string)
    (m : gmap string CacheItem) : gmap string CacheItem :=
  foldl (fun m k =>
           match m !! k with
           | Some v => Cleanup_visit now ttl m k v
           | None => m
           end) m order.

(** What one delivery of the ticker brings from outside: the reading of
    [time.Now()] and the order of the range. *)
Record sweep := mkSweep { sweep_now : Z; sweep_order : list string }.

(** The body of [for range ticker.C] in [Cleanup.func1], in its three
    steps: lock, range, unlock.  The range over the nil map has no
    iteration. *)
Definition Cleanup_locked (t : sweep) (c : BetterCache) : BetterCache :=
  set_items
    (Cleanup_range (sweep_now t) (ttl c) (sweep_order t) <$> items_map c) c.

Definition Cleanup_pass (t : sweep) (c : BetterCache) : option BetterCache :=
  c ← Lock c;
  Unlock (Cleanup_locked t c).

(** [for range ticker.C]: one pass per delivery.  The channel of a
    ticker is never closed, so the loop has no exit: when the deliveries
    run out, or when a pass cannot go on, the goroutine is parked. *)
Fixpoint Cleanup_func1_loop (ticker : handle) (ticks : list sweep)
    (c : BetterCache) : Go (outcome unit * BetterCache) :=
  match ticks with
  | [] => ret (Parked, c)
  | t :: ticks' =>
      match Cleanup_pass t c with
      | Some c' => Cleanup_func1_loop ticker ticks' c'
      | None => ret (Parked, c)
      end
  end.

(** [Cleanup.func1], the sweeping goroutine; [ticker] and [c] are
    captured. *)
Definition Cleanup_func1 (ticker : handle) (ticks : list sweep)
    (c : BetterCache) (w : World) : (outcome unit * BetterCache) * World :=
  let '(r, f) := Cleanup_func1_loop ticker ticks c (mkFrame w []) in
  match r with
  | (Returned a, c') => ((Returned a, c'), foldl run_deferral (world f) (deferred f))
  | (Parked, c') => ((Parked, c'), world f)
  end.

(** [func (c *BetterCache) Cleanup()] *)
Definition Cleanup : World -> outcome unit * World :=
  call (ticker <- time_NewTicker time_Minute ;;
        go_stmt "Cleanup.func1" ;;
        ret (Returned tt))%go.

(** ** The global-variable lesson *)

(** A value of type [interface{}] as [betterCache] holds them: the nil
    interface, or a [*LargeObject] (itself nil or not). *)
Inductive any :=
| any_nil
| any_LargeObject (p : option LargeObject).

(** [sync.Map.Store] and [sync.Map.Load] on the package-level
    [betterCache]. *)
Definition sync_Map_Store (key : string) (v : any) (m : gmap string any)
  : gmap string any := <[key := v]> m.

Definition sync_Map_Load (key : string) (m : gmap string any) : any * bool :=
  match m !! key with
  | Some v => (v, true)
  | None => (any_nil, false)
  end.

(** The type assertion of [value] to [*LargeObject] in its one-result form:
    it panics when the dynamic type is not [*LargeObject], and the nil
    interface has no dynamic type. *)
Definition assert_LargeObject (v : any) : result (option LargeObject) :=
  match v with
  | any_LargeObject p => Ok p
  | any_nil =>
      Panic "interface conversion: interface {} is nil, not *lesson.LargeObject"
  end.

Definition SetGlobalCache (key : string) (val : option LargeObject)
    (betterCache : gmap string any) : gmap string any :=
  sync_Map_Store key (any_LargeObject val) betterCache.

Definition GetGlobalCache (key : string) (betterCache : gmap string any)
  : result (option LargeObject) :=
  let '(val, _) := sync_Map_Load key betterCache in
  assert_LargeObject val.

(** [cleanup()] of the global cache: a ticker and a goroutine whose
    range does nothing. *)
Definition cleanup : World -> outcome unit * World :=
  call (ticker <- time_NewTicker time_Hour ;;
        go_stmt "cleanup.func1" ;;
        ret (Returned tt))%go.

(** ** The HTTP body lesson *)

(** What the network answers to the two requests and the two reads. *)
Record http_env := mkHttpEnv {
  get1 : option error;
  read1 : list Byte.byte + error;
  get2 : option error;
  read2 : list Byte.byte + error
}.

Definition HTTPBodyLeak (e : http_env) : World -> outcome (option error) * World :=
  call (
    r <- http_Get "https://example.com" (get1 e) ;;
    match r with
    | inr err => ret (Returned (Some err))
    | inl resp =>
        b <- io_ReadAll resp (read1 e) ;;
        match b with
        | inr err => fmt_Println err ;; ret (Returned (Some err))
        | inl body =>
            fmt_Println (pretty (Z.of_nat (length body))) ;;
            r <- http_Get "https://example.com" (get2 e) ;;
            match r with
            | inr err => ret (Returned (Some err))
            | inl resp =>
                defer (DClose resp) ;;
                b <- io_ReadAll resp (read2 e) ;;
                match b with
                | inr err => fmt_Println err ;; ret (Returned (Some err))
                | inl body =>
                    fmt_Println (pretty (Z.of_nat (length body))) ;;
                    ret (Returned None)
                end
            end
        end
    end)%go.

(** ** deferloop.go *)

(** What the file system answers in one iteration. *)
Record file_io := mkFileIO {
  open_fails : option error;
  write_fails : option error
}.

(** [DeferInLoopLeak.func1], the closure called in iteration [i]. *)
Definition DeferInLoopLeak_func1 (i : Z) (o : file_io)
  : World -> outcome unit * World :=
  call (
    r <- os_OpenFile "output.txt" (open_fails o) ;;
    match r with
    | inr err =>
        fmt_Printf ("Error opening file: " +:+ err +:+ nl) ;;
        ret (Returned tt)
    | inl file =>
        defer (DClose file) ;;
        werr <- File_WriteString file ("Line " +:+ pretty i +:+ nl) (write_fails o) ;;
        match werr with
        | Some err =>
            fmt_Printf ("Error writing to file: " +:+ err +:+ nl) ;;
            ret (Returned tt)
        | None => ret (Returned tt)
        end
    end)%go.

(** The [for] loop over the indices [idx], one call of the closure per
    index. *)
Fixpoint DeferInLoopLeak_loop (io : Z -> file_io) (idx : list Z)
  : Go (outcome unit) :=
  match idx with
  | [] => ret (Returned tt)
  | i :: idx' =>
      (r <- invoke (DeferInLoopLeak_func1 i (io i)) ;;
       match r with
       | Returned _ => DeferInLoopLeak_loop io idx'
       | Parked => ret Parked
       end)%go
  end.

(** The Good variant: [for i := 0; i < 100_000; i++]. *)
Definition DeferInLoopLeak (io : Z -> file_io) : World -> outcome unit * World :=
  call (DeferInLoopLeak_loop io (seqZ 0 100000)).

(** ** sliceleak.go *)

(** The local variables of [SliceLeak] when it returns; [small_bad] is
    what [small] held after the Bad assignment. *)
Record SliceLeak_locals := mkLocals {
  l_data : slices.slice;
  small_bad : slices.slice;
  small : slices.slice;
  printed : Z
}.

(** The body of [SliceLeak] for a [data] of [n] elements; [None] is a
    slice-bounds panic. *)
Definition SliceLeak_body (n : Z) (h : slices.heap)
  : option (SliceLeak_locals * slices.heap) :=
  let '(data, h) := slices.make n h in
  small_bad ← slices.reslice_from data (slices.len data - 3);
  let '(small, h) := slices.make 3 h in
  src ← slices.reslice_from data (slices.len data - 3);
  let '(_, h) := slices.copy small src h in
  Some (mkLocals data small_bad small (slices.len small), h).

Definition SliceLeak : slices.heap -> option (SliceLeak_locals * slices.heap) :=
  SliceLeak_body 1000000.

(** ** map.go, the Bad cache and the caller *)

(** [Cache]; [Cache_mu] is the embedded [sync.RWMutex],
    [Cache_items_map] the field [items]. *)
Record Cache := mkCache {
  Cache_mu : bool;
  Cache_items_map : option (gmap string (list Byte.byte))
}.

(** The entries of [c.items]. *)
Definition Cache_items (c : Cache) : gmap string (list Byte.byte) :=
  map_entries (Cache_items_map c).

Definition Cache_Lock (c : Cache) : option Cache :=
  if Cache_mu c then None else Some (mkCache true (Cache_items_map c)).

Definition Cache_Unlock (c : Cache) : option Cache :=
  if Cache_mu c then Some (mkCache false (Cache_items_map c)) else None.

(** [func (c *Cache) Set(key, value)]; as in [BetterCache_Set] the
    deferred [Unlock] runs also when the assignment panics. *)
Definition Cache_Set (key : string) (val : list Byte.byte) (c : Cache)
  : option (result unit * Cache) :=
  c ← Cache_Lock c;
  let '(r, m) := map_assign key val (Cache_items_map c) in
  c ← Cache_Unlock (mkCache (Cache_mu c) m);
  Some (r, c).

(** The two caches [MapLeak] holds when it returns. *)
Record MapLeak_locals := mkMapLeak_locals {
  l_cache : Cache;
  l_betterCache : BetterCache
}.

(** [MapLeak]; [alloc1] and [alloc2] are what [runtime.ReadMemStats]
    reports in [m.Alloc].  Both maps are allocated with [make].  A [Set]
    that had to wait would leave the function parked, one that panicked
    would end it with the panic. *)
Definition MapLeak (alloc1 alloc2 : Z) (w : World)
  : result (outcome MapLeak_locals * World) :=
  let cache := mkCache false (Some ∅) in
  match Cache_Set "key" (String.list_byte_of_string "value") cache with
  | None => Ok (Parked, w)
  | Some (Panic msg, _) => Panic msg
  | Some (Ok _, cache) =>
      Ok (call (
        fmt_Println (pretty alloc1) ;;
        let betterCache := mkBetterCache false (Some ∅) time_Minute in
        r <- invoke Cleanup ;;
        match r with
        | Parked => ret Parked
        | Returned _ =>
            fmt_Println (pretty alloc2) ;;
            ret (Returned (mkMapLeak_locals cache betterCache))
        end)%go w)
  end.

(** ** The global-variable lesson, continued *)

(** [sync.Map.Range(f)]: [f] is called on the entries, in an order of the
    runtime's choosing, until it returns false; [f] may itself use the
    map, so the map is threaded through it. *)
Fixpoint sync_Map_Range
    (f : string -> any -> gmap string any -> bool * gmap string any)
    (order : list string) (m : gmap string any) : gmap string any :=
  match order with
  | [] => m
  | k :: order' =>
      match m !! k with
      | None => sync_Map_Range f order' m
      | Some v =>
          let '(continue, m') := f k v m in
          if continue then sync_Map_Range f order' m' else m'
      end
  end.

(** [cleanup.func1]: on every delivery of the ticker, a [Range] whose
    callback only returns true.  Like every range over a ticker it has no
    exit.  A tick brings the order of its [Range]. *)
Fixpoint cleanup_func1 (ticker : handle) (ticks : list (list string))
    (betterCache : gmap string any) : outcome unit * gmap string any :=
  match ticks with
  | [] => (Parked, betterCache)
  | order :: ticks' =>
      cleanup_func1 ticker ticks'
        (sync_Map_Range (fun key val m => (true, m)) order betterCache)
  end.

(** [GlobalVariableLeak]; [alloc] is the reading of [m.Alloc].  The
    selector [.data] on a nil pointer panics. *)
Definition GlobalVariableLeak (alloc : Z) (betterCache : gmap string any)
    (w : World) : result (gmap string any * World) :=
  let betterCache :=
    SetGlobalCache "key"
      (Some (mkLargeObject (replicate (Z.to_nat (1024 * 1024)) Byte.x00)))
      betterCache in
  match GetGlobalCache "key" betterCache with
  | Panic msg => Panic msg
  | Ok None => Panic "invalid memory address or nil pointer dereference"
  | Ok (Some obj) =>
      let w := emit_w (EvPrint (pretty (Z.of_nat (length (data obj))) +:+ nl)) w in
      let w := emit_w (EvPrint (pretty alloc +:+ nl)) w in
      Ok (betterCache, w)
  end.

End lesson.

(* ===================================================================== *)
(** * Notions the properties are stated with, and sample inputs          *)
(* ===================================================================== *)

Section Notions.
Import slices runtime lesson.

(** A slice whose window lies inside its backing array. *)
Definition valid (h : heap) (s : slice) : Prop :=
  exists a, h !! arr s = Some a /\ 0 <= off s /\ 0 <= len s /\
            off s + len s <= Z.of_nat (length a).

(** An entry is due when its age, as [Cleanup] computes it, is above
    the ttl. *)
Definition due (now ttl : Z) (v : CacheItem) : bool :=
  ttl <? Time_Sub now (timestamp v).

(** An entry is swept by a run of ticks when some tick finds it due. *)
Definition swept_by (ticks : list sweep) (ttl : Z) (k : string) (v : CacheItem) : bool :=
  existsb (fun t => bool_decide (k ∈ sweep_order t) && due (sweep_now t) ttl v) ticks.

(** Every live handle was drawn from the supply. *)
Definition bounded (w : World) : Prop :=
  forall h, h ∈ live (trace w) -> (h < next w)%nat.

(** Along [evs], started with the handles [s] live, the live handles
    stay inside [bound] at every point. *)
Fixpoint within (bound s : gset handle) (evs : list event) : Prop :=
  s ⊆ bound /\
  match evs with
  | [] => True
  | e :: evs' => within bound (live_step s e) evs'
  end.

(** Events that neither acquire nor release a handle. *)
Definition quiet (e : event) : Prop := acquired e = None /\ released e = None.

(** The world a [select] sees in round [r]. *)
Definition seen (ctx : nat) (r : round) (w : World) : World :=
  if cancel_first r then cancel_w ctx w else w.

End Notions.


(** The same loan, as the initial and as the refactored package hold it. *)
Definition upgrade (l : loan_initial.Loan) : loan.Loan :=
  loan.mkLoan (loan_initial.ID l) (loan_initial.Amount l) (loan_initial.Status l)
    (loan_initial.InterestRate l) (loan_initial.CustomerID l)
    (loan_initial.CreatedAt l).

(** A loan with another status. *)
Definition with_Status (s : string) (l : loan.Loan) : loan.Loan :=
  loan.mkLoan (loan.ID l) (loan.Amount l) s (loan.InterestRate l)
    (loan.CustomerID l) (loan.CreatedAt l).

(** A repository that, besides doing what [r] does, keeps the list of
    the loans it was asked to save. *)
Definition recording {S} (r : loan.LoanRepository S)
  : loan.LoanRepository (S * list loan.Loan) :=
  loan.mkLoanRepository (S * list loan.Loan)
    (fun ctx l st =>
       let '(e, l', st') := loan.Save r ctx l (fst st) in
       (e, l', (st', snd st ++ [l])))
    (fun ctx id st =>
       let '(res, st') := loan.FindByID r ctx id (fst st) in (res, (st', snd st)))
    (fun ctx l st =>
       let '(e, l', st') := loan.Update r ctx l (fst st) in
       (e, l', (st', snd st))).

(** A run of applications through the service, one after the other: the
    errors returned and the final state of the repository. *)
Fixpoint process_all {S} (svc : loan.LoanService S) (ctx : nat)
    (ls : list loan.Loan) (st : S) : list (option loan.error) * S :=
  match ls with
  | [] => ([], st)
  | l :: ls' =>
      let '(e, _, st') := loan.ProcessLoanApplication svc ctx l st in
      let '(es, st'') := process_all svc ctx ls' st' in
      (e :: es, st'')
  end.

(** The loans [Validate] accepts. *)
Definition valid_loan (l : loan.Loan) : bool :=
  match loan.Validate l with None => true | Some _ => false end.

(** A run of [Set] calls on the Bad cache, one after the other; [None]
    when one of them has to wait for the lock, and a panic ends the
    run. *)
Fixpoint Cache_Set_all (ops : list (string * list Byte.byte)) (c : lesson.Cache)
  : option (lesson.result unit * lesson.Cache) :=
  match ops with
  | [] => Some (lesson.Ok tt, c)
  | kv :: ops' =>
      match lesson.Cache_Set kv.1 kv.2 c with
      | None => None
      | Some (lesson.Ok _, c') => Cache_Set_all ops' c'
      | Some (lesson.Panic msg, c') => Some (lesson.Panic msg, c')
      end
  end.

(** What happens to the global cache: a [SetGlobalCache], or the
    sweeping goroutine of [cleanup] serving some ticks. *)
Inductive global_op :=
| GSet (key : string) (val : option lesson.LargeObject)
| GSweep (ticker : runtime.handle) (ticks : list (list string)).

Definition global_step (m : gmap string lesson.any) (o : global_op)
  : gmap string lesson.any :=
  match o with
  | GSet key val => lesson.SetGlobalCache key val m
  | GSweep ticker ticks => (lesson.cleanup_func1 ticker ticks m).2
  end.

(** The value the last [GSet] of [key] in a history stored, if any. *)
Fixpoint last_set (key : string) (ops : list global_op)
  : option (option lesson.LargeObject) :=
  match ops with
  | [] => None
  | o :: ops' =>
      match last_set key ops', o with
      | Some v, _ => Some v
      | None, GSet k v => if decide (k = key) then Some v else None
      | None, GSweep _ _ => None
      end
  end.

(** What the world sees of [m] ticks served by the Bad goroutine when
    [leakSlice] held [n] elements before them: for the lengths [n + 1]
    to [n + m] in turn, the log line with that length and then the line
    that [ClosureLeak] prints. *)
Definition tick_events (n m : nat) : list runtime.event :=
  flat_map
    (fun len =>
       [runtime.EvLog (lesson.nl +:+ "Working... " +:+ pretty (Z.of_nat len));
        runtime.EvPrint ("1048576" +:+ lesson.nl)])
    (seq (S n) m).

(** The element the Bad goroutine appends to [leakSlice] on a tick. *)
Definition new_leak (t : lesson.tick) : lesson.Leak :=
  lesson.mkLeak (lesson.rand1 t) ("Leak " +:+ pretty (lesson.rand2 t))
    (lesson.tick_now t).

(** The rounds in which the receive case has a value waiting. *)
Definition deliveries (sched : list runtime.round) : list runtime.round :=
  filter (fun r => is_Some (runtime.recv r)) sched.

(** Nobody cancels the context during these rounds. *)
Definition uncancelled (sched : list runtime.round) : Prop :=
  Forall (fun r => runtime.cancel_first r = false) sched.

(** The error of the first step of [HTTPBodyLeak] that fails, in the
    order request, read, request, read. *)
Definition first_failure (e : lesson.http_env) : option runtime.error :=
  match lesson.get1 e, lesson.read1 e, lesson.get2 e, lesson.read2 e with
  | Some err, _, _, _ => Some err
  | None, inr err, _, _ => Some err
  | None, inl _, Some err, _ => Some err
  | None, inl _, None, inr err => Some err
  | None, inl _, None, inl _ => None
  end.

(** The requests that succeeded, the strings written and the files
    opened along a trace. *)
Definition requests (evs : list runtime.event) : list runtime.handle :=
  omap (fun e => match e with runtime.EvHttpGet h _ => Some h | _ => None end) evs.

Definition written (evs : list runtime.event) : list string :=
  omap (fun e => match e with runtime.EvWrite _ s => Some s | _ => None end) evs.

Definition opened (evs : list runtime.event) : list runtime.handle :=
  omap (fun e => match e with runtime.EvOpenFile h _ => Some h | _ => None end) evs.

Definition closed (evs : list runtime.event) : list runtime.handle :=
  omap (fun e => match e with runtime.EvClose h => Some h | _ => None end) evs.

(** The iterations in which the file is opened, and those in which the
    line is written as well. *)
Definition opens (io : Z -> lesson.file_io) (idx : list Z) : list Z :=
  filter (fun i => lesson.open_fails (io i) = None) idx.

Definition writes (io : Z -> lesson.file_io) (idx : list Z) : list Z :=
  filter (fun i => lesson.write_fails (io i) = None) (opens io idx).

(** A cache with a ttl of 50ns holding an entry stamped 0 and one stamped
    100, swept at instant 60. *)
Definition cache_ex : lesson.BetterCache :=
  lesson.mkBetterCache false
    (Some (<["old" := lesson.mkCacheItem [] 0]>
             (<["new" := lesson.mkCacheItem [] 100]> ∅))) 50.

(** The zero value [BetterCache{}]: the lock free, the map nil. *)
Definition cache_zero : lesson.BetterCache := lesson.mkBetterCache false None 0.

(** The sweep of [cache_ex] at instant 60, in the order of its keys. *)
Definition sweep_ex : lesson.sweep :=
  lesson.mkSweep 60 (elements (dom (lesson.items cache_ex))).

(** The network answers every request and every read. *)
Definition http_ok : lesson.http_env :=
  lesson.mkHttpEnv None (inl []) None (inl []).

(** The first read fails. *)
Definition http_read1_fails : lesson.http_env :=
  lesson.mkHttpEnv None (inr "unexpected EOF") None (inl []).

(** A file system on which nothing fails. *)
Definition io_ok : Z -> lesson.file_io := fun _ => lesson.mkFileIO None None.

(** A world in which the context 0 exists and is active. *)
Definition world_with_ctx : runtime.World :=
  runtime.mkWorld 1%nat [] {[0%nat := Token.new None 0]}.

(** A round in which a tick is pending and taken. *)
Definition tick_then_cancel : list runtime.round :=
  [runtime.mkRound false (Some 1) true].

(** A round before which the context is cancelled, with no tick pending. *)
Definition cancel_round : runtime.round := runtime.mkRound true None true.

(* ===================================================================== *)
(** * Properties of the cancellation token                                *)
(* ===================================================================== *)

Section TokenFacts.
Import Token.

Lemma isCancelled_cancel (tk : t) : isCancelled (cancel tk) = true.
Proof. unfold isCancelled, cancel. destruct (st tk) eqn:E; simpl; by rewrite ?E. Qed.

Lemma cancel_cancelled (tk : t) : isCancelled tk = true -> cancel tk = tk.
Proof. unfold isCancelled, cancel. by destruct (st tk). Qed.

Lemma expire_cancelled now (tk : t) : isCancelled tk = true -> expire now tk = tk.
Proof.
  intros H. unfold expire. destruct (deadline tk); [|done].
  destruct (_ <=? _); [by apply cancel_cancelled | done].
Qed.

(** No operation leaves the cancelled state. *)
Lemma step_cancelled (tk : t) (o : op) :
  isCancelled tk = true ->
  (step tk o).1 = tk /\ (forall b, (step tk o).2 = Some b -> b = true).
Proof.
  intros H. destruct o; simpl.
  - split; [by apply cancel_cancelled | done].
  - split; [by apply expire_cancelled | done].
  - split; [done | intros b [= <-]; done].
Qed.

Lemma run_cancelled (ops : list op) (tk : t) :
  isCancelled tk = true ->
  (run tk ops).1 = tk /\ Forall (fun b => b = true) (run tk ops).2.
Proof.
  induction ops as [|o ops IH]; intros H; simpl; [by split|].
  destruct (step_cancelled tk o H) as [Hst Hans].
  destruct (step tk o) as [tk' ans]; simpl in *; subst tk'.
  destruct (IH H) as [IH1 IH2].
  destruct (run tk ops) as [tk'' rest]; simpl in *.
  split; [done|].
  destruct ans as [b|]; [|done].
  constructor; [by apply Hans | done].
Qed.

End TokenFacts.

(** C3.  After [cancel()] has been called once on a token, however it was
    created, every later [isCancelled()] answers true, whatever calls
    (further cancels, clock readings, queries) come in between and by
    whom; a second [cancel()] changes nothing; and the token stays in the
    cancelled state for ever. *)
Theorem token_cancel_is_permanent (tk : Token.t) (ops : list Token.op) :
  Token.cancel (Token.cancel tk) = Token.cancel tk /\
  Token.st (Token.cancel tk) = Token.cancelled /\
  (Token.run (Token.cancel tk) ops).1 = Token.cancel tk /\
  Token.isCancelled (Token.run (Token.cancel tk) ops).1 = true /\
  Forall (fun answer => answer = true) (Token.run (Token.cancel tk) ops).2.
Proof.
  pose proof (isCancelled_cancel tk) as Hc.
  destruct (run_cancelled ops _ Hc) as [H1 H2].
  repeat split; try done.
  - by apply cancel_cancelled.
  - unfold Token.isCancelled in Hc. by destruct (Token.st (Token.cancel tk)).
  - by rewrite H1.
Qed.

(* ===================================================================== *)
(** * Properties of package loan                                          *)
(* ===================================================================== *)

Section LoanFacts.
Import loan.

Lemma Validate_error_iff (l : Loan) :
  Validate l <> None <->
  SFleb (Amount l) f64_zero = true \/
  CustomerID l = "" \/
  SFltb (InterestRate l) f64_zero = true.
Proof.
  unfold Validate.
  destruct (SFleb (Amount l) f64_zero) eqn:E1; [split; [by left | done]|].
  destruct (String.eqb_spec (CustomerID l) "") as [E2|E2];
    [split; [by right; left | done]|].
  destruct (SFltb (InterestRate l) f64_zero) eqn:E3;
    [split; [by right; right | done]|].
  split; [done|]. intros [?|[?|?]]; done.
Qed.

Lemma Approve_error (l : Loan) : (Approve l).1 = Validate l.
Proof. unfold Approve. by destruct (Validate l). Qed.

End LoanFacts.

(** C9.  [Approve] returns exactly the error of [Validate], and that is
    an error exactly when the amount is at most zero, the customer id is
    empty or the interest rate is below zero; on an error the loan is
    left as it was; on success the status is "approved" and no other
    field has changed. *)
Theorem Approve_validates (l : loan.Loan) :
  (loan.Approve l).1 = loan.Validate l /\
  ((loan.Approve l).1 <> None <->
     SFleb (loan.Amount l) loan.f64_zero = true \/
     loan.CustomerID l = "" \/
     SFltb (loan.InterestRate l) loan.f64_zero = true) /\
  ((loan.Approve l).1 <> None -> (loan.Approve l).2 = l) /\
  ((loan.Approve l).1 = None ->
     loan.Status (loan.Approve l).2 = "approved" /\
     loan.ID (loan.Approve l).2 = loan.ID l /\
     loan.Amount (loan.Approve l).2 = loan.Amount l /\
     loan.InterestRate (loan.Approve l).2 = loan.InterestRate l /\
     loan.CustomerID (loan.Approve l).2 = loan.CustomerID l /\
     loan.CreatedAt (loan.Approve l).2 = loan.CreatedAt l).
Proof.
  split; [apply Approve_error|].
  split; [rewrite Approve_error; apply Validate_error_iff|].
  unfold loan.Approve. destruct (loan.Validate l); simpl; split; done.
Qed.

(* ===================================================================== *)
(** * The global cache                                                    *)
(* ===================================================================== *)

Section GlobalCacheFacts.
Import lesson.

Lemma GetGlobalCache_lookup (key : string) (m : gmap string any) :
  GetGlobalCache key m =
  match m !! key with
  | Some v => assert_LargeObject v
  | None => assert_LargeObject any_nil
  end.
Proof. unfold GetGlobalCache, sync_Map_Load. by destruct (m !! key). Qed.

End GlobalCacheFacts.

(** C5.  What [GetGlobalCache] does: for a key that was stored it returns
    the stored pointer, and for a key that is absent (never stored, or
    the map is empty) it does not return nil: the type assertion on the
    nil interface panics. *)
Theorem GetGlobalCache_absent_panics
    (key : string) (val : option lesson.LargeObject)
    (betterCache : gmap string lesson.any) :
  lesson.GetGlobalCache key (lesson.SetGlobalCache key val betterCache) = lesson.Ok val /\
  lesson.GetGlobalCache key (delete key betterCache) =
    lesson.Panic "interface conversion: interface {} is nil, not *lesson.LargeObject" /\
  lesson.GetGlobalCache "missing" ∅ =
    lesson.Panic "interface conversion: interface {} is nil, not *lesson.LargeObject".
Proof.
  rewrite !GetGlobalCache_lookup. unfold lesson.SetGlobalCache, lesson.sync_Map_Store.
  rewrite lookup_insert_eq, lookup_delete_eq, lookup_empty. done.
Qed.

(* ===================================================================== *)
(** * Slices: the copy and the reslice                                    *)
(* ===================================================================== *)

Section SliceFacts.
Import slices.

Lemma length_elems (h : heap) (s : slice) :
  valid h s -> length (elems h s) = Z.to_nat (len s).
Proof.
  intros (a & Ha & ? & ? & ?). unfold elems. rewrite Ha. simpl.
  rewrite length_take, length_drop. lia.
Qed.

(** The reslice [s[len(s)-3:]] shows the last three elements of [s]. *)
Lemma elems_reslice_tail (h : heap) (s t : slice) :
  valid h s -> 3 <= len s ->
  reslice_from s (len s - 3) = Some t ->
  elems h t = drop (Z.to_nat (len s - 3)) (elems h s) /\
  len t = 3 /\ arr t = arr s /\ valid h t.
Proof.
  intros (a & Ha & ? & ? & ?) H3. unfold reslice_from.
  destruct (_ && _) eqn:E; [|done]. intros [= <-]. simpl.
  split; [|split; [lia|split; [done|]]].
  - unfold elems; simpl. rewrite Ha; simpl.
    replace (Z.to_nat (len s)) with (Z.to_nat (len s - 3) + 3)%nat by lia.
    rewrite <- take_drop_commute, drop_drop.
    replace (Z.to_nat (off s) + Z.to_nat (len s - 3))%nat
      with (Z.to_nat (off s + (len s - 3))) by lia.
    f_equal. lia.
  - exists a. simpl. repeat split; [done|lia..].
Qed.

(** Allocation leaves what existing slices show untouched. *)
Lemma elems_make (h : heap) (s : slice) (n : Z) :
  valid h s -> elems (make n h).2 s = elems h s.
Proof.
  intros (a & Ha & _). unfold elems, make; simpl.
  by rewrite (lookup_app_l_Some _ _ _ _ Ha), Ha.
Qed.

(** The Good variant on any [data]: after [small = make([]int, 3)] and
    [copy(small, src)] with [src] three elements long, [small] shows
    what [src] shows, in an array of its own: no slice that existed
    before shares it, and all of them show what they showed. *)
Lemma copy_into_fresh (h : heap) (src : slice) :
  valid h src -> len src = 3 ->
  let '(small, h1) := make 3 h in
  let '(k, h2) := copy small src h1 in
  k = 3 /\ elems h2 small = elems h src /\
  (forall s, valid h s -> elems h2 s = elems h s /\ arr small <> arr s) /\
  len small = 3 /\ cap small = 3.
Proof.
  intros Hv Hl. pose proof (length_elems _ _ Hv) as Hlen.
  destruct Hv as (a & Ha & ? & ? & ?).
  unfold make, copy; simpl. rewrite Hl; simpl.
  assert (Hlt : (arr src < length h)%nat) by (by eapply lookup_lt_Some).
  assert (Hsrc : forall x, elems (h ++ [x]) src = elems h src).
  { intros x. unfold elems. by rewrite (lookup_app_l_Some _ _ _ _ Ha), Ha. }
  rewrite Hsrc.
  change (Z.to_nat (3 `min` 3)) with 3%nat. change (Z.to_nat 0) with 0%nat.
  unfold store. rewrite list_lookup_middle by done.
  set (vs := elems h src) in *.
  assert (Hvs : length vs = 3%nat) by lia.
  clearbody vs.
  rewrite (take_ge vs) by lia. simpl take.
  replace (drop (0 + length vs) [0; 0; 0]) with (@nil Z)
    by (symmetry; apply drop_ge; simpl; lia).
  rewrite app_nil_r. change (take 0 [0; 0; 0] ++ vs) with vs.
  split; [done|]. split; [|split; [|done]].
  - unfold elems; cbn [arr off len].
    rewrite list_lookup_insert_eq by (rewrite length_app; simpl; lia).
    change (Z.to_nat 3) with 3%nat. change (Z.to_nat 0) with 0%nat.
    cbn [default from_option app]. unfold id. rewrite drop_0. by rewrite take_ge by lia.
  - intros s (b & Hb & _).
    assert ((arr s < length h)%nat) by (by eapply lookup_lt_Some).
    split; [|simpl; lia]. unfold elems.
    rewrite list_lookup_insert_ne by lia.
    by rewrite (lookup_app_l_Some _ _ _ _ Hb), Hb.
Qed.

(** The body of [SliceLeak] for any length of at least three. *)
Lemma SliceLeak_body_spec (n : Z) (h : heap) :
  3 <= n ->
  exists loc h',
    lesson.SliceLeak_body n h = Some (loc, h') /\
    elems h' (lesson.small loc) = elems h' (lesson.small_bad loc) /\
    elems h' (lesson.small_bad loc) =
      drop (Z.to_nat (n - 3)) (elems h' (lesson.l_data loc)) /\
    length (elems h' (lesson.small loc)) = 3%nat /\
    len (lesson.small loc) = 3 /\ cap (lesson.small loc) = 3 /\
    arr (lesson.small loc) <> arr (lesson.l_data loc) /\
    arr (lesson.small_bad loc) = arr (lesson.l_data loc) /\
    len (lesson.l_data loc) = n /\
    lesson.printed loc = 3.
Proof.
  intros Hn. unfold lesson.SliceLeak_body.
  set (h1 := h ++ [replicate (Z.to_nat n) 0]).
  set (data := mkSlice (length h) 0 n n).
  assert (Hd : valid h1 data).
  { exists (replicate (Z.to_nat n) 0). unfold h1; simpl.
    rewrite list_lookup_middle by done. rewrite length_replicate.
    repeat split; [lia..]. }
  unfold make at 1. fold h1. fold data. cbv beta iota zeta.
  destruct (reslice_from data (len data - 3)) as [t|] eqn:Ht; cycle 1.
  { unfold reslice_from in Ht. simpl in Ht.
    destruct (_ && _) eqn:E; [done|]. apply andb_false_iff in E. lia. }
  destruct (elems_reslice_tail h1 data t Hd Hn Ht) as (Ht1 & Ht2 & Ht3 & Hvt).
  pose proof (copy_into_fresh h1 t Hvt Ht2) as Hc. revert Hc.
  cbn [mbind option_bind].
  destruct (make 3 h1) as [sm h2].
  destruct (copy sm t h2) as [k h3].
  intros (_ & Hsm & Hframe & Hl & Hcap).
  destruct (Hframe _ Hd) as [Hfd Hne]. destruct (Hframe _ Hvt) as [Hft _].
  eexists _, _. split; [reflexivity|]. cbn [lesson.small lesson.small_bad
    lesson.l_data lesson.printed].
  rewrite Hsm, Hft, Hfd.
  repeat split; try done.
  rewrite (length_elems _ _ Hvt). lia.
Qed.

End SliceFacts.

(** C10.  In [SliceLeak] the slice of the Good variant (a fresh slice of
    three elements filled by [copy]) shows, element for element, what the
    Bad reslice [data[len(data)-3:]] shows, namely the last three elements
    of [data]; the copy has length and capacity three and its own backing
    array, whereas the reslice shares the array of [data]. *)
Theorem SliceLeak_copy_equals_reslice (h : slices.heap) :
  exists loc h',
    lesson.SliceLeak h = Some (loc, h') /\
    slices.elems h' (lesson.small loc) = slices.elems h' (lesson.small_bad loc) /\
    slices.elems h' (lesson.small_bad loc) =
      drop (Z.to_nat (1000000 - 3)) (slices.elems h' (lesson.l_data loc)) /\
    length (slices.elems h' (lesson.small loc)) = 3%nat /\
    slices.len (lesson.small loc) = 3 /\
    slices.cap (lesson.small loc) = 3 /\
    slices.arr (lesson.small loc) <> slices.arr (lesson.l_data loc) /\
    slices.arr (lesson.small_bad loc) = slices.arr (lesson.l_data loc) /\
    slices.len (lesson.l_data loc) = 1000000 /\
    lesson.printed loc = 3.
Proof. unfold lesson.SliceLeak. apply SliceLeak_body_spec. lia. Qed.

(* ===================================================================== *)
(** * The sweep of BetterCache                                            *)
(* ===================================================================== *)

Section SweepFacts.
Import lesson.

(** The range removes exactly the due entries it is given, whatever the
    order, and touches nothing else. *)
Lemma Cleanup_range_lookup (now ttl : Z) (order : list string)
    (m : gmap string CacheItem) (k : string) :
  Cleanup_range now ttl order m !! k =
  match m !! k with
  | Some v => if bool_decide (k ∈ order) && due now ttl v then None else Some v
  | None => None
  end.
Proof.
  unfold Cleanup_range. revert m.
  induction order as [|k0 order IH]; intros m; simpl.
  { by destruct (m !! k). }
  rewrite IH. clear IH.
  destruct (decide (k = k0)) as [->|Hne].
  - rewrite (bool_decide_eq_true_2 (k0 ∈ k0 :: order)) by left.
    destruct (m !! k0) as [v0|] eqn:E0; [|by rewrite E0].
    unfold Cleanup_visit. fold (due now ttl v0).
    destruct (due now ttl v0) eqn:Ed.
    + by rewrite lookup_delete_eq.
    + rewrite E0, Ed. by rewrite andb_false_r.
  - assert (Hin : bool_decide (k ∈ k0 :: order) = bool_decide (k ∈ order)).
    { apply bool_decide_ext. rewrite elem_of_cons.
      split; [intros [?|?]; done | by right]. }
    rewrite Hin.
    destruct (m !! k0) as [v0|]; [|done].
    unfold Cleanup_visit. destruct (_ <? _); [|done].
    by rewrite lookup_delete_ne.
Qed.

Lemma Time_Sub_exact (t u : Z) :
  minDuration <= t - u <= maxDuration -> Time_Sub t u = t - u.
Proof. unfold Time_Sub. lia. Qed.


(** The range finds nothing in a map without entries. *)
Lemma Cleanup_range_empty (now ttl : Z) (order : list string) :
  Cleanup_range now ttl order ∅ = ∅.
Proof.
  apply map_eq. intros k. rewrite Cleanup_range_lookup. by rewrite lookup_empty.
Qed.

(** The entries after a range over the field, nil or not. *)
Lemma map_entries_Cleanup_range (now ttl : Z) (order : list string)
    (m : option (gmap string CacheItem)) :
  map_entries (Cleanup_range now ttl order <$> m) =
  Cleanup_range now ttl order (map_entries m).
Proof. destruct m; simpl; [done|]. by rewrite Cleanup_range_empty. Qed.

(** A pass with the lock free, in terms of the range alone. *)
Lemma Cleanup_pass_free (t : sweep) (c : BetterCache) :
  mu c = false ->
  Cleanup_pass t c =
    Some (mkBetterCache false
            (Cleanup_range (sweep_now t) (ttl c) (sweep_order t) <$> items_map c)
            (ttl c)).
Proof. intros H. unfold Cleanup_pass, Lock. by rewrite H. Qed.

Lemma Cleanup_pass_locked (t : sweep) (c : BetterCache) :
  mu c = true -> Cleanup_pass t c = None.
Proof. intros H. unfold Cleanup_pass, Lock. by rewrite H. Qed.

(** [Set] on a map that was made, with the lock free, stores the value
    with the reading of the clock. *)
Lemma BetterCache_Set_lookup key val now (c : BetterCache)
    (tbl : gmap string CacheItem) :
  mu c = false -> items_map c = Some tbl ->
  BetterCache_Set key val now c =
    Some (Ok tt,
          mkBetterCache false (Some (<[key := mkCacheItem val now]> tbl)) (ttl c)).
Proof.
  intros H Htbl. unfold BetterCache_Set, Lock. rewrite H. simpl.
  by rewrite Htbl.
Qed.

(** [Set] on the nil map, with the lock free: the assignment panics and
    the deferred [Unlock] leaves the cache as it was. *)
Lemma BetterCache_Set_nil key val now (c : BetterCache) :
  mu c = false -> items_map c = None ->
  BetterCache_Set key val now c =
    Some (Panic "assignment to entry in nil map", c).
Proof.
  intros H Hnil. unfold BetterCache_Set, Lock. rewrite H. simpl.
  rewrite Hnil. simpl. destruct c as [m i l]. simpl in *. by subst.
Qed.

(** Inserting with [Set] at instant [t0] and sweeping afterwards: the
    entry is gone exactly when its age at the sweep is above the ttl. *)
Lemma Set_then_sweep key val (t0 : Z) (t : sweep) (c : BetterCache) :
  mu c = false -> is_Some (items_map c) -> key ∈ sweep_order t ->
  exists c1 c2,
    BetterCache_Set key val t0 c = Some (Ok tt, c1) /\
    mu c1 = false /\ ttl c1 = ttl c /\ is_Some (items_map c1) /\
    Cleanup_pass t c1 = Some c2 /\
    items c2 !! key =
      if ttl c <? Time_Sub (sweep_now t) t0 then None
      else Some (mkCacheItem val t0).
Proof.
  intros Hmu [tbl Htbl] Hin.
  rewrite (BetterCache_Set_lookup key val t0 c tbl Hmu Htbl).
  eexists _, _. split; [reflexivity|]. split; [done|]. split; [done|].
  split; [by eexists|]. rewrite Cleanup_pass_free by done.
  split; [reflexivity|]. unfold items. simpl.
  rewrite Cleanup_range_lookup, lookup_insert_eq.
  rewrite bool_decide_eq_true_2 by done. done.
Qed.

(** The loop of the sweeping goroutine, started with the lock free: it
    serves every tick, the lock is free again after each pass, and what
    is left are the entries no tick found due. *)
Lemma Cleanup_func1_loop_runs (ticker : runtime.handle) (ticks : list sweep)
    (c : BetterCache) (f : runtime.Frame) :
  mu c = false ->
  exists c',
    Cleanup_func1_loop ticker ticks c f = ((runtime.Parked, c'), f) /\
    mu c' = false /\ ttl c' = ttl c /\
    forall k,
      items c' !! k =
      match items c !! k with
      | Some v => if swept_by ticks (ttl c) k v then None else Some v
      | None => None
      end.
Proof.
  revert c. induction ticks as [|t ticks IH]; intros c Hmu.
  - exists c. simpl. repeat split; try done. intros k. by destruct (items c !! k).
  - cbn [Cleanup_func1_loop]. unfold Cleanup_pass, Lock. rewrite Hmu. simpl.
    set (c1 := mkBetterCache false _ (ttl c)).
    destruct (IH c1 eq_refl) as (c' & Hrun & Hmu' & Httl & Hl).
    exists c'. split; [exact Hrun|]. split; [done|]. split; [done|].
    intros k. rewrite Hl. unfold c1, items. cbn [items_map ttl].
    rewrite map_entries_Cleanup_range, Cleanup_range_lookup.
    destruct (map_entries (items_map c) !! k) as [v|]; [|done].
    simpl. destruct (bool_decide _ && due _ _ v); done.
Qed.

End SweepFacts.



(* ===================================================================== *)
(** * Handles: acquisition and release along a trace                      *)
(* ===================================================================== *)

Section RuntimeFacts.
Import runtime lesson.

Lemma bounded_World0 : bounded World0.
Proof. intros h. unfold World0, live. simpl. set_solver. Qed.

Lemma live_app (tr evs : list event) :
  live (tr ++ evs) = foldl live_step (live tr) evs.
Proof. unfold live. apply foldl_app. Qed.

Lemma next_not_live (w : World) : bounded w -> next w ∉ live (trace w).
Proof. intros Hb Hin. apply Hb in Hin. lia. Qed.

Lemma above_not_live (w : World) (h : handle) :
  bounded w -> (next w <= h)%nat -> h ∉ live (trace w).
Proof. intros Hb Hle Hin. apply Hb in Hin. lia. Qed.

End RuntimeFacts.

(** Symbolic execution of a call: unfold the monad and the library calls,
    and gather the events the call appended to the trace. *)
Ltac run_call :=
  unfold lesson.fmt_Println, lesson.fmt_Printf, lesson.log_Println,
    lesson.log_Printf, runtime.go_stmt, runtime.select_forever,
    runtime.time_NewTicker, runtime.time_NewTimer;
  unfold runtime.call, runtime.bind, runtime.ret, runtime.emit, runtime.fresh,
    runtime.defer;
  simpl; unfold runtime.emit_w; simpl; rewrite <- ?app_assoc; simpl.

(** C6, as stated, fails: the body of the first request (handle 0 in the
    initial world) is still open when [HTTPBodyLeak] returns, both when
    everything succeeds and when the first read fails. *)
Lemma HTTPBodyLeak_first_body_left_open :
  (exists tr,
     lesson.HTTPBodyLeak http_ok runtime.World0 =
       (runtime.Returned None, runtime.mkWorld 2%nat tr ∅) /\
     runtime.EvHttpGet 0%nat "https://example.com" ∈ tr /\
     (runtime.EvClose 0%nat ∉ tr) /\
     0%nat ∈ runtime.live tr) /\
  (exists tr,
     lesson.HTTPBodyLeak http_read1_fails runtime.World0 =
       (runtime.Returned (Some "unexpected EOF"), runtime.mkWorld 1%nat tr ∅) /\
     runtime.EvHttpGet 0%nat "https://example.com" ∈ tr /\
     (runtime.EvClose 0%nat ∉ tr) /\
     0%nat ∈ runtime.live tr).
Proof.
  split; eexists; (split; [vm_compute; reflexivity|]);
    (split; [set_solver|]);
    (split; [rewrite ?elem_of_cons, elem_of_nil; intros H;
             repeat (destruct H as [H|H]; [discriminate|]); done|]);
    unfold runtime.live; simpl; set_solver.
Qed.

(** C6, amended.  [HTTPBodyLeak] always returns; of the bodies it
    acquires, the second is closed on every path, whether the read
    succeeds or fails, so that at the return the live handles are those
    of before plus the body of the first request, which the function
    never closes. *)
Theorem HTTPBodyLeak_closes_second_body_only
    (e : lesson.http_env) (w : runtime.World) :
  bounded w ->
  exists res w' evs,
    lesson.HTTPBodyLeak e w = (runtime.Returned res, w') /\
    runtime.trace w' = runtime.trace w ++ evs /\
    runtime.live (runtime.trace w') =
      runtime.live (runtime.trace w) ∪
      (match lesson.get1 e with None => {[runtime.next w]} | Some _ => ∅ end) /\
    (runtime.EvClose (runtime.next w) ∉ evs) /\
    (lesson.get1 e = None ->
     (exists b, lesson.read1 e = inl b) ->
     lesson.get2 e = None ->
     runtime.EvHttpGet (S (runtime.next w)) "https://example.com" ∈ evs /\
     last evs = Some (runtime.EvClose (S (runtime.next w))) /\
     S (runtime.next w) ∉ runtime.live (runtime.trace w')).
Proof.
  intros Hb. pose proof (next_not_live w Hb) as Hn.
  assert (Hn' : S (runtime.next w) ∉ runtime.live (runtime.trace w))
    by (apply above_not_live; [done|lia]).
  assert (Hne : S (runtime.next w) <> runtime.next w) by lia.
  unfold lesson.HTTPBodyLeak, runtime.http_Get, runtime.io_ReadAll.
  destruct e as [[e1|] r1 [e2|] r2]; destruct r1 as [b1|e1']; destruct r2 as [b2|e2'];
    run_call; eexists _, _, _; (split; [reflexivity|]);
    cbn [runtime.trace lesson.get1 lesson.read1 lesson.get2];
    (split; [try reflexivity; by rewrite app_nil_r|]);
    rewrite ?live_app;
    cbn [foldl runtime.live_step runtime.acquired runtime.released];
    (split; [set_solver|]);
    (split; [rewrite ?elem_of_cons, elem_of_nil; intros H;
             repeat (destruct H as [H|H]; [try discriminate; injection H; lia|]);
             done|]);
    intros H1 [b Hr1] H2; try discriminate;
    (split; [set_solver|]); (split; [done|]); set_solver.
Qed.

Lemma HTTPBodyLeak_closes_second_body_only_witness :
  bounded runtime.World0 /\
  exists res w',
    lesson.HTTPBodyLeak http_ok runtime.World0 = (runtime.Returned res, w') /\
    runtime.live (runtime.trace w') = {[0%nat]} /\
    1%nat ∉ runtime.live (runtime.trace w').
Proof.
  split; [apply bounded_World0|].
  destruct (HTTPBodyLeak_closes_second_body_only http_ok runtime.World0 bounded_World0)
    as (res & w' & evs & Heq & _ & Hl & _ & H2).
  exists res, w'. split; [exact Heq|]. split.
  - rewrite Hl. apply union_empty_l_L.
  - apply H2; [reflexivity | by eexists | reflexivity].
Defined.

(* ===================================================================== *)
(** * The loop of DeferInLoopLeak                                         *)
(* ===================================================================== *)

Section DeferLoopFacts.
Import runtime lesson.

Lemma within_prefix (bound : gset handle) (evs pre : list event) (s : gset handle) :
  within bound s evs -> pre `prefix_of` evs -> foldl live_step s pre ⊆ bound.
Proof.
  revert pre s. induction evs as [|e evs IH]; intros pre s [Hs Hw] Hpre.
  - apply prefix_nil_inv in Hpre as ->. done.
  - destruct pre as [|e' pre]; [done|].
    pose proof (prefix_cons_inv_1 _ _ _ _ Hpre) as ->.
    apply prefix_cons_inv_2 in Hpre. simpl. by apply IH.
Qed.

(** One call of the closure: it returns, and it leaves the live handles
    as it found them; in between at most its own file is open. *)
Lemma DeferInLoopLeak_func1_events (i : Z) (o : file_io) (w : World) :
  bounded w ->
  exists w' evs,
    DeferInLoopLeak_func1 i o w = (Returned tt, w') /\
    trace w' = trace w ++ evs /\
    bounded w' /\
    live (trace w') = live (trace w) /\
    within (live (trace w) ∪ {[next w]}) (live (trace w)) evs /\
    (open_fails o = None ->
     head evs = Some (EvOpenFile (next w) "output.txt") /\
     last evs = Some (EvClose (next w)) /\
     (write_fails o = None ->
      EvWrite (next w) ("Line " +:+ pretty i +:+ nl) ∈ evs)).
Proof.
  intros Hb. pose proof (next_not_live w Hb) as Hn.
  unfold DeferInLoopLeak_func1, os_OpenFile, File_WriteString.
  destruct o as [[eo|] [ew|]]; run_call; eexists _, _;
    (split; [reflexivity|]); cbn [trace open_fails write_fails];
    (split; [reflexivity|]);
    unfold bounded; cbn [trace next];
    rewrite ?live_app; cbn [foldl live_step acquired released within];
    (split; [intros h Hh; try (apply Hb in Hh; lia);
             assert (h ∈ live (trace w)) as Hh' by set_solver;
             apply Hb in Hh'; lia|]);
    (split; [set_solver|]);
    (split; [repeat split; set_solver|]);
    intros Ho; try discriminate;
    (split; [done|]); (split; [done|]); intros Hw; try discriminate; set_solver.
Qed.

(** The loop over any list of indices. *)
Lemma DeferInLoopLeak_loop_events (io : Z -> file_io) (idx : list Z)
    (w : World) (ds : list deferral) :
  bounded w ->
  exists w' evs,
    DeferInLoopLeak_loop io idx (mkFrame w ds) = (Returned tt, mkFrame w' ds) /\
    trace w' = trace w ++ evs /\
    bounded w' /\
    live (trace w') = live (trace w) /\
    (forall pre, pre `prefix_of` evs ->
       exists h, live (trace w ++ pre) ⊆ live (trace w) ∪ {[h]}).
Proof.
  revert w. induction idx as [|i idx IH]; intros w Hb.
  - exists w, []. simpl. unfold ret. rewrite app_nil_r.
    repeat split; try done.
    intros pre ->%prefix_nil_inv. exists 0%nat. rewrite app_nil_r. set_solver.
  - destruct (DeferInLoopLeak_func1_events i (io i) w Hb)
      as (w1 & evs1 & Hrun & Htr1 & Hb1 & Hl1 & Hw1 & _).
    destruct (IH w1 Hb1) as (w' & evs & Hloop & Htr & Hb' & Hl & Hpk).
    exists w', (evs1 ++ evs).
    split.
    { cbn [DeferInLoopLeak_loop]. unfold bind at 1, invoke.
      cbn [world deferred]. rewrite Hrun. exact Hloop. }
    split; [by rewrite Htr, Htr1, app_assoc|].
    split; [done|]. split; [by rewrite Hl|].
    intros pre Hpre.
    destruct (prefix_weak_total pre evs1 (evs1 ++ evs) Hpre) as [Hp|[k ->]].
    { by apply prefix_app_r. }
    + exists (next w). rewrite live_app. by eapply within_prefix.
    + apply prefix_app_inv in Hpre. destruct (Hpk k Hpre) as [h Hh].
      exists h. rewrite app_assoc, <- Htr1, <- Hl1. exact Hh.
Qed.

End DeferLoopFacts.

(** One iteration whose write fails: the file is opened, the error is
    printed, and the deferred close runs when the closure returns. *)
Example DeferInLoopLeak_func1_write_fails :
  lesson.DeferInLoopLeak_func1 7 (lesson.mkFileIO None (Some "disk full"))
    runtime.World0 =
  (runtime.Returned tt,
   runtime.mkWorld 1%nat
     [runtime.EvOpenFile 0%nat "output.txt";
      runtime.EvPrint ("Error writing to file: disk full" +:+ lesson.nl);
      runtime.EvClose 0%nat] ∅).
Proof. vm_compute. reflexivity. Qed.

(** C7.  In the Good loop of [DeferInLoopLeak] every call of the closure
    returns with the file it opened closed again, last thing before it
    returns, whether the write succeeded or failed, so an iteration
    leaves the open handles as it found them; and over the whole loop, at
    every point of the trace, at most one handle is open beyond those
    that were open before the loop. *)
Theorem DeferInLoopLeak_closes_every_iteration
    (io : Z -> lesson.file_io) (w : runtime.World) :
  bounded w ->
  (forall i w1, bounded w1 ->
     exists w2 evs,
       lesson.DeferInLoopLeak_func1 i (io i) w1 = (runtime.Returned tt, w2) /\
       runtime.trace w2 = runtime.trace w1 ++ evs /\
       runtime.live (runtime.trace w2) = runtime.live (runtime.trace w1) /\
       (lesson.open_fails (io i) = None ->
        head evs = Some (runtime.EvOpenFile (runtime.next w1) "output.txt") /\
        last evs = Some (runtime.EvClose (runtime.next w1)))) /\
  exists w' evs,
    lesson.DeferInLoopLeak io w = (runtime.Returned tt, w') /\
    runtime.trace w' = runtime.trace w ++ evs /\
    runtime.live (runtime.trace w') = runtime.live (runtime.trace w) /\
    (forall pre, pre `prefix_of` evs ->
       exists h, runtime.live (runtime.trace w ++ pre) ⊆
                 runtime.live (runtime.trace w) ∪ {[h]}).
Proof.
  intros Hb. split.
  - intros i w1 Hb1.
    destruct (DeferInLoopLeak_func1_events i (io i) w1 Hb1)
      as (w2 & evs & Hrun & Htr & _ & Hl & _ & Ho).
    exists w2, evs. do 3 (split; [done|]).
    intros H. destruct (Ho H) as (? & ? & _). done.
  - destruct (DeferInLoopLeak_loop_events io (seqZ 0 100000) w [] Hb)
      as (w' & evs & Hloop & Htr & _ & Hl & Hpk).
    exists w', evs. split; [|done].
    unfold lesson.DeferInLoopLeak, runtime.call. by rewrite Hloop.
Qed.

Lemma DeferInLoopLeak_closes_every_iteration_witness :
  bounded runtime.World0 /\
  exists w',
    lesson.DeferInLoopLeak io_ok runtime.World0 = (runtime.Returned tt, w') /\
    runtime.live (runtime.trace w') = ∅.
Proof.
  split; [apply bounded_World0|].
  destruct (DeferInLoopLeak_closes_every_iteration io_ok runtime.World0 bounded_World0)
    as (_ & w' & evs & Heq & _ & Hl & _).
  exists w'. split; [exact Heq|]. rewrite Hl. reflexivity.
Defined.

(* ===================================================================== *)
(** * Goroutines that select on their context                             *)
(* ===================================================================== *)

Section SelectFacts.
Import runtime lesson.

Lemma live_quiet (s : gset handle) (evs : list event) :
  Forall quiet evs -> foldl live_step s evs = s.
Proof.
  intros H. revert s. induction H as [|e evs [Ha Hr] _ IH]; intros s; [done|].
  simpl. unfold live_step at 2. rewrite Ha, Hr. apply IH.
Qed.

Lemma ctx_Done_cancel_w (k : nat) (w : World) :
  is_Some (tokens w !! k) -> ctx_Done k (cancel_w k w) = true.
Proof.
  intros [tk Htk]. unfold ctx_Done, cancel_w. simpl.
  rewrite lookup_alter_eq, Htk. simpl. apply isCancelled_cancel.
Qed.

Lemma ctx_Done_cancel_w_mono (k j : nat) (w : World) :
  ctx_Done k w = true -> ctx_Done k (cancel_w j w) = true.
Proof.
  unfold ctx_Done, cancel_w. simpl. intros H.
  destruct (decide (j = k)) as [->|Hne].
  - rewrite lookup_alter_eq. destruct (tokens w !! k) as [tk|]; [|done].
    simpl. apply isCancelled_cancel.
  - by rewrite lookup_alter_ne.
Qed.

Lemma tokens_cancel_w_is_Some (k j : nat) (w : World) :
  is_Some (tokens w !! k) -> is_Some (tokens (cancel_w j w) !! k).
Proof.
  unfold cancel_w. simpl. intros H.
  destruct (decide (j = k)) as [->|Hne].
  - rewrite lookup_alter_eq. by apply fmap_is_Some.
  - by rewrite lookup_alter_ne.
Qed.

Lemma seen_same (ctx : nat) (r : round) (w : World) :
  next (seen ctx r w) = next w /\ trace (seen ctx r w) = trace w.
Proof. unfold seen. by destruct (cancel_first r). Qed.

Lemma seen_is_Some (ctx : nat) (r : round) (w : World) :
  is_Some (tokens w !! ctx) -> is_Some (tokens (seen ctx r w) !! ctx).
Proof. unfold seen. destruct (cancel_first r); [apply tokens_cancel_w_is_Some | done]. Qed.

Lemma seen_Done (ctx : nat) (r : round) (w : World) :
  is_Some (tokens w !! ctx) ->
  ctx_Done ctx w = true \/ cancel_first r = true ->
  ctx_Done ctx (seen ctx r w) = true.
Proof.
  intros Hs H. unfold seen. destruct (cancel_first r).
  - by apply ctx_Done_cancel_w.
  - by destruct H.
Qed.

(** With the token cancelled the select never blocks, and it takes the
    [Done] case unless the runtime picks a pending receive. *)
Lemma select2_cancelled (rv : option Z) (p : bool) :
  select2 rv true p <> Blocked /\
  (rv = None \/ p = false -> select2 rv true p = Case2).
Proof.
  split; [by destruct rv, p|].
  intros [H|H]; subst; [done | by destruct rv].
Qed.

(** One round of the Good goroutine of the goroutine lesson. *)
Lemma GoroutineLeakWithContext_loop_cons (ctx : nat) (ticker : handle)
    (r : round) (sched : list round) (f : Frame) :
  GoroutineLeakWithContext_loop ctx ticker (r :: sched) f =
  match select2 (recv r) (ctx_Done ctx (seen ctx r (world f))) (pick1 r) with
  | Case1 _ =>
      GoroutineLeakWithContext_loop ctx ticker sched
        (mkFrame (emit_w (EvLog ("Working..." +:+ nl)) (seen ctx r (world f)))
                 (deferred f))
  | Case2 => (Returned tt, mkFrame (seen ctx r (world f)) (deferred f))
  | Blocked =>
      GoroutineLeakWithContext_loop ctx ticker sched
        (mkFrame (seen ctx r (world f)) (deferred f))
  end.
Proof.
  cbn [GoroutineLeakWithContext_loop].
  unfold bind, deliver, select_round, log_Println, emit, ret, seen. simpl.
  by destruct (select2 _ _ _).
Qed.

(** The loop only logs: it defers nothing, draws no handle, and neither
    acquires nor releases one. *)
Lemma GoroutineLeakWithContext_loop_frame (ctx : nat) (ticker : handle)
    (sched : list round) (f : Frame) :
  exists res w' evs,
    GoroutineLeakWithContext_loop ctx ticker sched f =
      (res, mkFrame w' (deferred f)) /\
    next w' = next (world f) /\
    trace w' = trace (world f) ++ evs /\
    Forall quiet evs.
Proof.
  revert f. induction sched as [|r sched IH]; intros f.
  - exists Parked, (world f), []. simpl. unfold ret. rewrite app_nil_r.
    by destruct f.
  - rewrite GoroutineLeakWithContext_loop_cons.
    destruct (seen_same ctx r (world f)) as [Hn Ht].
    destruct (select2 _ _ _).
    + destruct (IH (mkFrame (emit_w (EvLog ("Working..." +:+ nl))
                                    (seen ctx r (world f))) (deferred f)))
        as (res & w' & evs & Heq & Hn' & Ht' & Hq).
      exists res, w', (EvLog ("Working..." +:+ nl) :: evs).
      split; [exact Heq|]. simpl in *. split; [congruence|].
      split; [by rewrite Ht', Ht, <- app_assoc|].
      constructor; [done|exact Hq].
    + exists (Returned tt), (seen ctx r (world f)), [].
      rewrite app_nil_r. done.
    + destruct (IH (mkFrame (seen ctx r (world f)) (deferred f)))
        as (res & w' & evs & Heq & Hn' & Ht' & Hq).
      exists res, w', evs. simpl in *.
      split; [exact Heq|]. split; [congruence|]. split; [congruence|done].
Qed.

(** Once the token is cancelled, the loop returns at the first select at
    which the runtime does not pick a pending tick. *)
Lemma GoroutineLeakWithContext_loop_returns (ctx : nat) (ticker : handle)
    (pre post : list round) (r : round) (f : Frame) :
  is_Some (tokens (world f) !! ctx) ->
  ctx_Done ctx (world f) = true \/
    Exists (fun r' => cancel_first r' = true) (pre ++ [r]) ->
  recv r = None \/ pick1 r = false ->
  (GoroutineLeakWithContext_loop ctx ticker (pre ++ r :: post) f).1 = Returned tt.
Proof.
  intros Hs Hc Hr. revert f Hs Hc.
  induction pre as [|r0 pre IH]; intros f Hs Hc.
  - cbn [app] in *. rewrite GoroutineLeakWithContext_loop_cons.
    rewrite (seen_Done ctx r (world f) Hs).
    + by rewrite (proj2 (select2_cancelled _ _) Hr).
    + destruct Hc as [?|Hc]; [by left|right].
      apply Exists_cons in Hc as [?|Hc]; [done|by apply Exists_nil in Hc].
  - cbn [app] in *. rewrite GoroutineLeakWithContext_loop_cons.
    assert (Hc' : ctx_Done ctx (seen ctx r0 (world f)) = true \/
                  Exists (fun r' => cancel_first r' = true) (pre ++ [r])).
    { destruct Hc as [Hc|Hc]; [left; apply seen_Done; auto|].
      apply Exists_cons in Hc as [Hc|Hc]; [left; apply seen_Done; auto|by right]. }
    pose proof (seen_is_Some ctx r0 (world f) Hs) as Hs'.
    destruct (select2 _ _ _); [apply IH; simpl; auto|done|apply IH; simpl; auto].
Qed.

(** One round of the Good goroutine of the channel lesson. *)
Lemma ChannelLeak_func2_select_cons (ctx : nat) (r : round)
    (sched : list round) (f : Frame) :
  ChannelLeak_func2_select ctx (r :: sched) f =
  match select2 (recv r) (ctx_Done ctx (seen ctx r (world f))) (pick1 r) with
  | Case1 val =>
      (Returned tt,
       mkFrame (emit_w (EvPrint (pretty val +:+ nl)) (seen ctx r (world f)))
               (deferred f))
  | Case2 => (Returned tt, mkFrame (seen ctx r (world f)) (deferred f))
  | Blocked =>
      ChannelLeak_func2_select ctx sched
        (mkFrame (seen ctx r (world f)) (deferred f))
  end.
Proof.
  cbn [ChannelLeak_func2_select].
  unfold bind, deliver, select_round, fmt_Println, emit, ret, seen. simpl.
  by destruct (select2 _ _ _).
Qed.

(** Once the token is cancelled, the select returns in that round. *)
Lemma ChannelLeak_func2_select_returns (ctx : nat)
    (pre post : list round) (r : round) (f : Frame) :
  is_Some (tokens (world f) !! ctx) ->
  ctx_Done ctx (world f) = true \/
    Exists (fun r' => cancel_first r' = true) (pre ++ [r]) ->
  (ChannelLeak_func2_select ctx (pre ++ r :: post) f).1 = Returned tt.
Proof.
  intros Hs Hc. revert f Hs Hc.
  induction pre as [|r0 pre IH]; intros f Hs Hc.
  - cbn [app] in *. rewrite ChannelLeak_func2_select_cons.
    rewrite (seen_Done ctx r (world f) Hs).
    + pose proof (proj1 (select2_cancelled (recv r) (pick1 r))).
      by destruct (select2 _ _ _).
    + destruct Hc as [?|Hc]; [by left|right].
      apply Exists_cons in Hc as [?|Hc]; [done|by apply Exists_nil in Hc].
  - cbn [app] in *. rewrite ChannelLeak_func2_select_cons.
    assert (Hc' : ctx_Done ctx (seen ctx r0 (world f)) = true \/
                  Exists (fun r' => cancel_first r' = true) (pre ++ [r])).
    { destruct Hc as [Hc|Hc]; [left; apply seen_Done; auto|].
      apply Exists_cons in Hc as [Hc|Hc]; [left; apply seen_Done; auto|by right]. }
    pose proof (seen_is_Some ctx r0 (world f) Hs) as Hs'.
    destruct (select2 _ _ _); [done|done|apply IH; simpl; auto].
Qed.

Lemma call_fst {A} (body : Go (outcome A)) (w : World) :
  (call body w).1 = (body (mkFrame w [])).1.
Proof. unfold call. destruct (body _) as [[a|] f]; done. Qed.

End SelectFacts.

(** C4.  A goroutine of a Good variant, selecting on the context [ctx]
    it was given: suppose [ctx] is cancelled by the time of round [r]
    (it was cancelled when the goroutine started, or it is cancelled
    before one of the selects up to [r]).  Then no select evaluated with
    the token cancelled blocks; the goroutine of the channel lesson has
    returned by round [r]; and the goroutine of the goroutine lesson has
    returned by round [r] if at [r] the runtime does not pick a pending
    tick, in particular when no tick is pending: it waits for no event
    from outside.  Moreover [ChannelLeak] cancels its context when it
    returns, so the goroutine it started returns at its first select. *)
Theorem cancelled_task_returns
    (ctx : nat) (w : runtime.World) (pre post : list runtime.round)
    (r : runtime.round) :
  is_Some (runtime.tokens w !! ctx) ->
  runtime.ctx_Done ctx w = true \/
    Exists (fun r' => runtime.cancel_first r' = true) (pre ++ [r]) ->
  (forall rv p, runtime.select2 rv true p <> runtime.Blocked) /\
  (lesson.ChannelLeak_func2 ctx (pre ++ r :: post) w).1 = runtime.Returned tt /\
  (runtime.recv r = None \/ runtime.pick1 r = false ->
   (lesson.GoroutineLeakWithContext_func1 ctx (pre ++ r :: post) w).1 =
     runtime.Returned tt) /\
  (forall now w0 r0 post0,
     (lesson.ChannelLeak now w0).1 = runtime.Returned tt /\
     runtime.ctx_Done (runtime.next w0) (lesson.ChannelLeak now w0).2 = true /\
     (lesson.ChannelLeak_func2 (runtime.next w0) (r0 :: post0)
        (lesson.ChannelLeak now w0).2).1 = runtime.Returned tt).
Proof.
  intros Hs Hc. split; [intros rv p; apply select2_cancelled|].
  split; [|split].
  - unfold lesson.ChannelLeak_func2. rewrite call_fst.
    by apply ChannelLeak_func2_select_returns.
  - intros Hr. unfold lesson.GoroutineLeakWithContext_func1. rewrite call_fst.
    unfold runtime.time_NewTicker, runtime.bind, runtime.fresh, runtime.emit,
      runtime.defer, runtime.ret. simpl.
    by apply GoroutineLeakWithContext_loop_returns.
  - intros now w0 r0 post0.
    assert (Hrun : lesson.ChannelLeak now w0 =
      (runtime.Returned tt,
       runtime.cancel_w (runtime.next w0)
         (runtime.mkWorld (S (runtime.next w0))
            ((runtime.trace w0 ++ [runtime.EvGo "ChannelLeak.func1"]) ++
               [runtime.EvGo "ChannelLeak.func2"])
            (<[runtime.next w0 := Token.new (Some runtime.time_Second) now]>
               (runtime.tokens w0))))) by reflexivity.
    rewrite Hrun. cbn [fst snd].
    set (w1 := runtime.mkWorld _ _ _).
    assert (Hs1 : is_Some (runtime.tokens w1 !! runtime.next w0)).
    { unfold w1. simpl. rewrite lookup_insert_eq. by eexists. }
    pose proof (ctx_Done_cancel_w _ _ Hs1) as Hd.
    split; [done|]. split; [done|].
    unfold lesson.ChannelLeak_func2. rewrite call_fst.
    change (r0 :: post0) with ([] ++ r0 :: post0).
    apply ChannelLeak_func2_select_returns.
    + cbn [runtime.world]. by apply tokens_cancel_w_is_Some.
    + left. exact Hd.
Qed.

Lemma cancelled_task_returns_witness :
  is_Some (runtime.tokens world_with_ctx !! 0%nat) /\
  (lesson.ChannelLeak_func2 0 (tick_then_cancel ++ cancel_round :: []) world_with_ctx).1 =
    runtime.Returned tt /\
  (lesson.GoroutineLeakWithContext_func1 0 (tick_then_cancel ++ cancel_round :: [])
     world_with_ctx).1 = runtime.Returned tt.
Proof.
  assert (Hs : is_Some (runtime.tokens world_with_ctx !! 0%nat))
    by (eexists; apply lookup_singleton_eq).
  assert (Hc : runtime.ctx_Done 0 world_with_ctx = true \/
               Exists (fun r' => runtime.cancel_first r' = true)
                 (tick_then_cancel ++ [cancel_round]))
    by (right; apply Exists_app; right; constructor; reflexivity).
  destruct (cancelled_task_returns 0 world_with_ctx tick_then_cancel [] cancel_round Hs Hc)
    as (_ & Hch & Hw & _).
  split; [exact Hs|]. split; [exact Hch|]. apply Hw. by left.
Defined.

(* ===================================================================== *)
(** * Timers and tickers                                                  *)
(* ===================================================================== *)

Section TickerFacts.
Import runtime lesson.

Lemma ClosureLeak_run (w : World) :
  ClosureLeak w = (Returned tt, emit_w (EvPrint (pretty (1024 * 1024) +:+ nl)) w).
Proof.
  unfold ClosureLeak, call, bind, ret, fmt_Println, emit.
  cbn [data world deferred foldl]. rewrite length_replicate.
  rewrite Z2Nat.id by lia. reflexivity.
Qed.

(** The Bad goroutine never returns and never touches a handle in its
    loop. *)
Lemma GoroutineLeak_loop_parks (ticker : handle) (ticks : list tick)
    (leakSlice : list Leak) (largeString : string) (f : Frame) :
  exists leakSlice' w' evs,
    GoroutineLeak_loop ticker ticks leakSlice largeString f =
      ((Parked, leakSlice'), mkFrame w' (deferred f)) /\
    trace w' = trace (world f) ++ evs /\
    Forall quiet evs /\
    length leakSlice' = (length leakSlice + length ticks)%nat.
Proof.
  revert leakSlice largeString f.
  induction ticks as [|t ticks IH]; intros leakSlice largeString f.
  - exists leakSlice, (world f), []. simpl. unfold ret. rewrite app_nil_r.
    destruct f. repeat split; [done|simpl; lia].
  - cbn [GoroutineLeak_loop]. unfold bind at 1 2, log_Printf, emit, invoke.
    cbn [world deferred]. rewrite ClosureLeak_run.
    match goal with |- context [GoroutineLeak_loop ticker ticks ?l ?s ?f'] =>
      destruct (IH l s f') as (l' & w' & evs & Heq & Htr & Hq & Hlen) end.
    eexists l', w', (_ :: _ :: evs). split; [exact Heq|].
    split; [rewrite Htr; unfold emit_w; simpl; by rewrite <- !app_assoc|].
    split; [repeat constructor; done|].
    rewrite Hlen, length_app. simpl. lia.
Qed.

(** The sweeping goroutine of [Cleanup] never returns and does nothing
    to the world of handles. *)
Lemma Cleanup_func1_parks (ticker : handle) (ticks : list sweep)
    (c : BetterCache) (w : World) :
  exists c', Cleanup_func1 ticker ticks c w = ((Parked, c'), w).
Proof.
  unfold Cleanup_func1.
  assert (H : forall f, exists c',
            Cleanup_func1_loop ticker ticks c f = ((Parked, c'), f)).
  { revert c. induction ticks as [|t ticks IH]; intros c f; simpl.
    - by exists c.
    - destruct (Cleanup_pass t c) as [c1|]; [apply IH | by exists c]. }
  destruct (H (mkFrame w [])) as [c' ->]. by exists c'.
Qed.

(** A [Range] whose callback only returns true changes nothing. *)
Lemma sync_Map_Range_true (order : list string) (m : gmap string any) :
  sync_Map_Range (fun key val m => (true, m)) order m = m.
Proof.
  induction order as [|k order IH]; simpl; [done|].
  by destruct (m !! k).
Qed.

Lemma cleanup_func1_same (ticker : handle) (ticks : list (list string))
    (m : gmap string any) :
  cleanup_func1 ticker ticks m = (Parked, m).
Proof.
  revert m. induction ticks as [|order ticks IH]; intros m; simpl; [done|].
  by rewrite sync_Map_Range_true.
Qed.

End TickerFacts.

(** C1, as stated, fails: [Cleanup] returns with the ticker it created
    (handle 0 in the initial world) running, no [Stop] is deferred or
    called, and the sweeping goroutine, however many ticks it serves,
    neither stops the ticker nor returns. *)
Lemma Cleanup_leaves_ticker_running :
  lesson.Cleanup runtime.World0 =
    (runtime.Returned tt,
     runtime.mkWorld 1%nat
       [runtime.EvNewTicker 0%nat runtime.time_Minute;
        runtime.EvGo "Cleanup.func1"] ∅) /\
  0%nat ∈ runtime.live (runtime.trace (lesson.Cleanup runtime.World0).2) /\
  (runtime.EvStop 0%nat ∉ runtime.trace (lesson.Cleanup runtime.World0).2) /\
  (forall ticks c,
     exists c',
       lesson.Cleanup_func1 0%nat ticks c (lesson.Cleanup runtime.World0).2 =
         ((runtime.Parked, c'), (lesson.Cleanup runtime.World0).2)).
Proof.
  split; [reflexivity|].
  split; [unfold runtime.live; simpl; set_solver|].
  split; [|intros; apply Cleanup_func1_parks].
  simpl. rewrite ?elem_of_cons, elem_of_nil. intros [H|[H|H]]; done.
Qed.

(** C1, amended.  The ticker of the Good goroutine of the goroutine
    lesson is stopped on every path by which that goroutine returns (the
    [Stop] is the last thing it does), and it runs while the goroutine
    has not returned.  The goroutine of [GoroutineLeak] and the function
    [TimerLeak] have no path by which they return: the one loops on its
    ticker and touches no handle, the other parks in [select {}] after
    creating its two timers and starting its two goroutines.  [Cleanup]
    and [cleanup] return leaving the ticker they created running, and
    the sweeping goroutine each of them starts, however many ticks it
    serves, neither stops the ticker nor returns. *)
Theorem tickers_stopped_where_deferred
    (ctx : nat) (sched : list runtime.round) (w : runtime.World) :
  bounded w ->
  (exists res w' evs,
     lesson.GoroutineLeakWithContext_func1 ctx sched w = (res, w') /\
     runtime.trace w' =
       runtime.trace w ++
       runtime.EvNewTicker (runtime.next w) runtime.time_Second :: evs /\
     (res = runtime.Returned tt ->
      last evs = Some (runtime.EvStop (runtime.next w)) /\
      runtime.live (runtime.trace w') = runtime.live (runtime.trace w)) /\
     (res = runtime.Parked ->
      Forall quiet evs /\ runtime.next w ∈ runtime.live (runtime.trace w'))) /\
  (exists w',
     lesson.TimerLeak w = (runtime.Parked, w') /\
     runtime.trace w' =
       runtime.trace w ++
       [runtime.EvNewTimer (S (runtime.next w)) runtime.time_Hour;
        runtime.EvGo "TimerLeak.func1";
        runtime.EvNewTimer (S (S (runtime.next w))) runtime.time_Second;
        runtime.EvGo "TimerLeak.func2"]) /\
  (forall ticks leakSlice,
     exists leakSlice' w' evs,
       lesson.GoroutineLeak_func1 ticks leakSlice w =
         ((runtime.Parked, leakSlice'), w') /\
       runtime.trace w' =
         runtime.trace w ++
         runtime.EvNewTicker (runtime.next w) runtime.time_Second :: evs /\
       Forall quiet evs /\
       runtime.next w ∈ runtime.live (runtime.trace w')) /\
  (exists w',
     lesson.Cleanup w = (runtime.Returned tt, w') /\
     runtime.trace w' =
       runtime.trace w ++
       [runtime.EvNewTicker (runtime.next w) runtime.time_Minute;
        runtime.EvGo "Cleanup.func1"] /\
     runtime.next w ∈ runtime.live (runtime.trace w') /\
     (forall ticks c,
        exists c',
          lesson.Cleanup_func1 (runtime.next w) ticks c w' =
            ((runtime.Parked, c'), w'))) /\
  (exists w',
     lesson.cleanup w = (runtime.Returned tt, w') /\
     runtime.trace w' =
       runtime.trace w ++
       [runtime.EvNewTicker (runtime.next w) runtime.time_Hour;
        runtime.EvGo "cleanup.func1"] /\
     runtime.next w ∈ runtime.live (runtime.trace w') /\
     (forall ticks betterCache,
        lesson.cleanup_func1 (runtime.next w) ticks betterCache =
          (runtime.Parked, betterCache))).
Proof.
  intros Hb. pose proof (next_not_live w Hb) as Hn.
  split; [|split; [|split; [|split]]].
  - unfold lesson.GoroutineLeakWithContext_func1, runtime.call.
    unfold runtime.time_NewTicker, runtime.bind at 1 2 3 4, runtime.fresh,
      runtime.emit, runtime.defer, runtime.ret.
    cbn [runtime.world runtime.deferred].
    match goal with |- context [lesson.GoroutineLeakWithContext_loop ctx ?h sched ?f] =>
      destruct (GoroutineLeakWithContext_loop_frame ctx h sched f)
        as (res & w1 & evs & Heq & _ & Htr & Hq); rewrite Heq end.
    cbn [runtime.world runtime.deferred runtime.emit_w runtime.trace] in Htr.
    destruct res as [[]|].
    + eexists _, _, (evs ++ [runtime.EvStop (runtime.next w)]).
      split; [reflexivity|]. simpl. rewrite Htr.
      split; [by rewrite <- !app_assoc|].
      split; [|done]. intros _. split; [by rewrite last_snoc|].
      rewrite <- !app_assoc. rewrite live_app. simpl.
      rewrite foldl_app, (live_quiet _ _ Hq).
      unfold runtime.live_step; simpl. set_solver.
    + eexists _, _, evs. split; [reflexivity|]. cbn [runtime.world]. rewrite Htr.
      split; [by rewrite <- !app_assoc|].
      split; [done|]. intros _. split; [done|].
      rewrite <- !app_assoc. rewrite live_app. simpl.
      rewrite (live_quiet _ _ Hq).
      unfold runtime.live_step; simpl. set_solver.
  - eexists. split; [reflexivity|]. simpl. rewrite <- !app_assoc. simpl. done.
  - intros ticks leakSlice. unfold lesson.GoroutineLeak_func1.
    unfold runtime.time_NewTicker, runtime.bind at 1 2 3, runtime.fresh,
      runtime.emit, runtime.ret.
    cbn [runtime.world runtime.deferred].
    match goal with |- context [lesson.GoroutineLeak_loop ?h ticks leakSlice ?s ?f] =>
      destruct (GoroutineLeak_loop_parks h ticks leakSlice s f)
        as (l' & w1 & evs & Heq & Htr & Hq & _); rewrite Heq end.
    cbn [runtime.world runtime.deferred runtime.emit_w runtime.trace] in Htr.
    exists l', w1, evs. split; [reflexivity|]. rewrite Htr.
    split; [by rewrite <- !app_assoc|]. split; [done|].
    rewrite <- !app_assoc. rewrite live_app. simpl.
    rewrite (live_quiet _ _ Hq).
      unfold runtime.live_step; simpl. set_solver.
  - eexists. split; [reflexivity|]. simpl. rewrite <- !app_assoc. simpl.
    split; [done|]. split; [rewrite live_app; unfold runtime.live_step; simpl; set_solver|].
    intros ticks c. apply Cleanup_func1_parks.
  - eexists. split; [reflexivity|]. simpl. rewrite <- !app_assoc. simpl.
    split; [done|]. split; [rewrite live_app; unfold runtime.live_step; simpl; set_solver|].
    intros ticks m. apply cleanup_func1_same.
Qed.

Lemma bounded_world_with_ctx : bounded world_with_ctx.
Proof. intros h. unfold world_with_ctx, runtime.live. simpl. set_solver. Qed.

(** The Good goroutine on a run in which its context is cancelled after
    one tick. *)
Lemma GoroutineLeakWithContext_func1_run :
  (lesson.GoroutineLeakWithContext_func1 0 (tick_then_cancel ++ [cancel_round])
     world_with_ctx).1 = runtime.Returned tt.
Proof. vm_compute. reflexivity. Qed.

Lemma tickers_stopped_where_deferred_witness :
  bounded world_with_ctx /\
  exists w',
    lesson.GoroutineLeakWithContext_func1 0 (tick_then_cancel ++ [cancel_round])
      world_with_ctx = (runtime.Returned tt, w') /\
    runtime.live (runtime.trace w') = ∅.
Proof.
  split; [apply bounded_world_with_ctx|].
  destruct (tickers_stopped_where_deferred 0 (tick_then_cancel ++ [cancel_round])
              world_with_ctx bounded_world_with_ctx)
    as ((res & w' & evs & Heq & _ & HR & _) & _).
  pose proof GoroutineLeakWithContext_func1_run as Hres.
  rewrite Heq in Hres. cbn [fst] in Hres. subst res.
  exists w'. split; [exact Heq|].
  destruct (HR eq_refl) as [_ Hl]. rewrite Hl. reflexivity.
Defined.

(* ===================================================================== *)
(** * Worked examples                                                     *)
(* ===================================================================== *)

(** The loan of [main.go], [Loan{Amount: 10000}]: it has no customer id,
    so the refactored [Approve] refuses it and the status stays empty. *)
Example Approve_main_loan :
  loan.Approve
    (loan.mkLoan "" (S754_finite false 5497558138880000 (-39)) ""
                 (S754_zero false) "" 0) =
  (Some "customer ID is required",
   loan.mkLoan "" (S754_finite false 5497558138880000 (-39)) ""
               (S754_zero false) "" 0).
Proof. reflexivity. Qed.

Example Approve_good_loan :
  loan.Approve
    (loan.mkLoan "L1" (S754_finite false 5497558138880000 (-39)) "pending"
                 (S754_zero false) "C7" 0) =
  (None,
   loan.mkLoan "L1" (S754_finite false 5497558138880000 (-39)) "approved"
               (S754_zero false) "C7" 0).
Proof. reflexivity. Qed.

(** A NaN amount is not at most zero: [Validate] lets it through. *)
Example Validate_nan_amount :
  loan.Validate (loan.mkLoan "L2" S754_nan "" (S754_zero false) "C7" 0) = None.
Proof. reflexivity. Qed.

(** Cancel, a query, a second cancel, the clock, a query. *)
Example token_history :
  Token.run (Token.new (Some 5) 100)
    [Token.IsCancelled; Token.Cancel; Token.IsCancelled; Token.Cancel;
     Token.Clock 1000; Token.IsCancelled] =
  (Token.mk Token.cancelled (Some 105), [false; true; true]).
Proof. reflexivity. Qed.

(** A token with a deadline is cancelled by the clock alone. *)
Example token_deadline :
  Token.run (Token.new (Some 5) 100)
    [Token.Clock 104; Token.IsCancelled; Token.Clock 105; Token.IsCancelled] =
  (Token.mk Token.cancelled (Some 105), [false; true]).
Proof. reflexivity. Qed.

(** The Good half of [SliceLeak] on a [data] of five distinct elements:
    the copy holds the last three, in an array of its own. *)
Example copy_last_three :
  slices.copy (slices.mkSlice 1 0 3 3) (slices.mkSlice 0 2 3 3)
    [[1; 2; 3; 4; 5]; [0; 0; 0]] =
  (3, [[1; 2; 3; 4; 5]; [3; 4; 5]]).
Proof. reflexivity. Qed.

Example SliceLeak_body_five :
  lesson.SliceLeak_body 5 [] =
  Some (lesson.mkLocals (slices.mkSlice 0 0 5 5) (slices.mkSlice 0 2 3 3)
                        (slices.mkSlice 1 0 3 3) 3,
        [[0; 0; 0; 0; 0]; [0; 0; 0]]).
Proof. reflexivity. Qed.

(** A [data] shorter than three elements: the reslice panics. *)
Example SliceLeak_body_short : lesson.SliceLeak_body 2 [] = None.
Proof. reflexivity. Qed.

(** [time.Time.Sub] saturates. *)
Example Time_Sub_saturates :
  lesson.Time_Sub (2 ^ 64) 0 = lesson.maxDuration /\
  lesson.Time_Sub 60 100 = -40.
Proof. split; reflexivity. Qed.

(** [Set] on the zero values [BetterCache{}] and [Cache{}]: the map is
    nil and the assignment panics; a sweep of the zero value finds
    nothing. *)
Example BetterCache_Set_zero_value :
  lesson.BetterCache_Set "key" [] 7 cache_zero =
    Some (lesson.Panic "assignment to entry in nil map", cache_zero) /\
  lesson.Cache_Set "key" [] (lesson.mkCache false None) =
    Some (lesson.Panic "assignment to entry in nil map", lesson.mkCache false None) /\
  lesson.Cleanup_pass (lesson.mkSweep 7 ["key"]) cache_zero = Some cache_zero.
Proof. repeat split. Qed.

(** The channel goroutine started by [ChannelLeak]: its context is
    cancelled when [ChannelLeak] returns, so it returns at its first
    select without printing. *)
Example ChannelLeak_func2_after_ChannelLeak :
  lesson.ChannelLeak_func2 0 [runtime.mkRound false None true]
    (lesson.ChannelLeak 0 runtime.World0).2 =
  (runtime.Returned tt, (lesson.ChannelLeak 0 runtime.World0).2).
Proof. vm_compute. reflexivity. Qed.

(** The Bad channel goroutine with nobody sending: parked. *)
Example ChannelLeak_func1_parked :
  lesson.ChannelLeak_func1 None runtime.World0 = (runtime.Parked, runtime.World0).
Proof. reflexivity. Qed.

(** [TimerLeak]: two timers, no [Stop], parked. *)
Example TimerLeak_run :
  lesson.TimerLeak runtime.World0 =
  (runtime.Parked,
   runtime.mkWorld 3%nat
     [runtime.EvNewTimer 1%nat runtime.time_Hour;
      runtime.EvGo "TimerLeak.func1";
      runtime.EvNewTimer 2%nat runtime.time_Second;
      runtime.EvGo "TimerLeak.func2"]
     {[0%nat := Token.mk Token.active None]}).
Proof. reflexivity. Qed.

(* ===================================================================== *)
(** * Further properties: package loan                                    *)
(* ===================================================================== *)

Section MoreLoanFacts.
Import loan.

Lemma Validate_with_Status (s : string) (l : Loan) :
  Validate (with_Status s l) = Validate l.
Proof. reflexivity. Qed.

End MoreLoanFacts.

(** X1.  The verdict of [Approve] does not look at the status: a loan is
    approved or refused the same whatever status it has (a rejected or
    defaulted loan with valid data is approved like a pending one), and
    approving a loan a second time gives the same answer and changes
    nothing more. *)
Theorem Approve_ignores_status (l : loan.Loan) (s : string) :
  (loan.Approve (with_Status s l)).1 = (loan.Approve l).1 /\
  ((loan.Approve l).1 = None ->
   (loan.Approve (with_Status s l)).2 = (loan.Approve l).2) /\
  loan.Approve (loan.Approve l).2 = loan.Approve l.
Proof.
  unfold loan.Approve. rewrite Validate_with_Status.
  destruct (loan.Validate l) as [err|] eqn:E; cbn [fst snd].
  - split; [done|]. split; [done|]. by rewrite E.
  - split; [done|]. split; [done|].
    fold (with_Status loan.StatusApproved l).
    rewrite Validate_with_Status, E. done.
Qed.

(** X2.  Whatever the repository does and whether its [Save] fails or
    not, over any run of applications the loans that reach [Save] are
    exactly those [Validate] accepts, in the order submitted and as
    submitted; an application that fails validation gets the validation
    error back and leaves the repository as it was. *)
Theorem ProcessLoanApplication_saves_valid_only
    {S : Type} (r : loan.LoanRepository S) (ctx : nat)
    (ls : list loan.Loan) (st : S) (log : list loan.Loan) :
  (process_all (loan.NewLoanService (recording r)) ctx ls (st, log)).2.2 =
    log ++ filter (fun l => valid_loan l = true) ls /\
  (forall l,
     loan.Validate l <> None ->
     loan.ProcessLoanApplication (loan.NewLoanService r) ctx l st =
       (loan.Validate l, l, st)) /\
  (forall l,
     loan.Validate l = None ->
     loan.ProcessLoanApplication (loan.NewLoanService r) ctx l st =
       loan.Save r ctx l st).
Proof.
  split; [|split].
  - revert st log. induction ls as [|l ls IH]; intros st log.
    + simpl. by rewrite app_nil_r.
    + cbn [process_all]. unfold loan.ProcessLoanApplication at 1.
      destruct (loan.Validate l) as [err|] eqn:E.
      * rewrite filter_cons_False by (unfold valid_loan; by rewrite E).
        specialize (IH st log).
        destruct (process_all _ ctx ls (st, log)) as [es st'']. exact IH.
      * rewrite filter_cons_True by (unfold valid_loan; by rewrite E).
        cbn [loan.Save loan.repo loan.NewLoanService recording fst snd].
        destruct (loan.Save r ctx l st) as [[e l'] st'].
        specialize (IH st' (log ++ [l])).
        destruct (process_all _ ctx ls (st', log ++ [l])) as [es st''].
        cbn [fst snd] in *. rewrite IH. by rewrite <- app_assoc.
  - intros l Hl. unfold loan.ProcessLoanApplication.
    by destruct (loan.Validate l).
  - intros l Hl. unfold loan.ProcessLoanApplication. by rewrite Hl.
Qed.

(** X3.  The initial [Approve] never fails and approves any loan, valid
    or not.  The refactored [Approve] does the same on the loans
    [Validate] accepts, and on the others it differs: it returns the
    validation error and leaves the status alone. *)
Theorem Approve_initial_and_refactored (l : loan_initial.Loan) :
  (loan_initial.Approve l).1 = None /\
  loan_initial.Status (loan_initial.Approve l).2 = "approved" /\
  (loan.Validate (upgrade l) = None ->
   loan.Approve (upgrade l) = (None, upgrade (loan_initial.Approve l).2)) /\
  (loan.Validate (upgrade l) <> None ->
   loan.Approve (upgrade l) = (loan.Validate (upgrade l), upgrade l)).
Proof.
  split; [done|]. split; [done|]. unfold loan.Approve.
  destruct (loan.Validate (upgrade l)); split; done.
Qed.

Section InterestFacts.
Import loan.







End InterestFacts.


(* ===================================================================== *)
(** * Further properties: the caches of map.go                            *)
(* ===================================================================== *)

Section MoreCacheFacts.
Import lesson.

(** [Set] on the Bad cache with the lock free: it stores into a map
    that was made, and panics on the nil map, the deferred [Unlock]
    leaving the cache as it was. *)
Lemma Cache_Set_free (k : string) (v : list Byte.byte) (c : Cache)
    (tbl : gmap string (list Byte.byte)) :
  Cache_mu c = false -> Cache_items_map c = Some tbl ->
  Cache_Set k v c = Some (Ok tt, mkCache false (Some (<[k := v]> tbl))).
Proof.
  intros H Htbl. unfold Cache_Set, Cache_Lock. rewrite H. simpl. by rewrite Htbl.
Qed.

Lemma Cache_Set_nil (k : string) (v : list Byte.byte) (c : Cache) :
  Cache_mu c = false -> Cache_items_map c = None ->
  Cache_Set k v c = Some (Panic "assignment to entry in nil map", c).
Proof.
  intros H Hnil. unfold Cache_Set, Cache_Lock. rewrite H. simpl.
  rewrite Hnil. simpl. destruct c as [m i]. simpl in *. by subst.
Qed.

Lemma size_insert_all (ops : list (string * list Byte.byte))
    (m : gmap string (list Byte.byte)) :
  NoDup ops.*1 -> (forall k, k ∈ ops.*1 -> m !! k = None) ->
  size (foldl (fun m kv => <[kv.1 := kv.2]> m) m ops) = (size m + length ops)%nat.
Proof.
  revert m. induction ops as [|[k v] ops IH]; intros m Hnd Hfresh; simpl.
  { lia. }
  apply NoDup_cons in Hnd as [Hk Hnd]. rewrite IH; [|done|].
  - rewrite map_size_insert_None by (apply Hfresh; left). lia.
  - intros k' Hk'. rewrite lookup_insert_ne by (intros ->; done).
    apply Hfresh. by right.
Qed.

Lemma dom_insert_all (ops : list (string * list Byte.byte))
    (m : gmap string (list Byte.byte)) :
  dom (foldl (fun m kv => <[kv.1 := kv.2]> m) m ops) = dom m ∪ list_to_set ops.*1.
Proof.
  revert m. induction ops as [|[k v] ops IH]; intros m; simpl.
  { set_solver. }
  rewrite IH, dom_insert_L. set_solver.
Qed.

End MoreCacheFacts.

(** X5.  The Bad cache only grows, once its map has been made.  A run
    of [Set] calls started with the lock free on a map that was made
    never waits, never panics and ends with the lock free; the map is the
    old one with each pair written over it in turn, so every key that
    was there or was set is there afterwards, and setting [n] distinct
    new keys leaves [n] more entries.  Nothing in the type removes one.
    On the zero value of the type, whose map is nil, the first [Set]
    panics and leaves the cache as it was, the lock free. *)
Theorem Cache_Set_only_grows
    (ops : list (string * list Byte.byte)) (c : lesson.Cache) :
  lesson.Cache_mu c = false ->
  (lesson.Cache_items_map c = None -> ops <> [] ->
   Cache_Set_all ops c =
     Some (lesson.Panic "assignment to entry in nil map", c)) /\
  (is_Some (lesson.Cache_items_map c) ->
   exists c',
     Cache_Set_all ops c = Some (lesson.Ok tt, c') /\
     lesson.Cache_mu c' = false /\
     is_Some (lesson.Cache_items_map c') /\
     lesson.Cache_items c' =
       foldl (fun m kv => <[kv.1 := kv.2]> m) (lesson.Cache_items c) ops /\
     dom (lesson.Cache_items c') = dom (lesson.Cache_items c) ∪ list_to_set ops.*1 /\
     (forall k v, last ops = Some (k, v) -> lesson.Cache_items c' !! k = Some v) /\
     (NoDup ops.*1 ->
      (forall k, k ∈ ops.*1 -> lesson.Cache_items c !! k = None) ->
      size (lesson.Cache_items c') = (size (lesson.Cache_items c) + length ops)%nat)).
Proof.
  intros Hmu. split.
  { intros Hnil Hops. destruct ops as [|[k v] ops]; [done|]. simpl.
    by rewrite Cache_Set_nil. }
  intros Hmade.
  assert (H : exists c', Cache_Set_all ops c = Some (lesson.Ok tt, c') /\
            lesson.Cache_mu c' = false /\
            is_Some (lesson.Cache_items_map c') /\
            lesson.Cache_items c' =
              foldl (fun m kv => <[kv.1 := kv.2]> m) (lesson.Cache_items c) ops).
  { revert c Hmu Hmade. induction ops as [|[k v] ops IH]; intros c Hmu [tbl Htbl]; simpl.
    - exists c. split; [done|]. split; [done|]. split; [by exists tbl|done].
    - rewrite (Cache_Set_free k v c tbl) by done.
      destruct (IH (lesson.mkCache false (Some (<[k := v]> tbl))) eq_refl)
        as (c' & Hrun & Hmu' & Hmade' & Hit); [by eexists|].
      exists c'. split; [exact Hrun|]. split; [done|]. split; [done|].
      rewrite Hit. unfold lesson.Cache_items. simpl. by rewrite Htbl. }
  destruct H as (c' & Hrun & Hmu' & Hmade' & Hit). exists c'.
  split; [done|]. split; [done|]. split; [done|]. split; [done|]. rewrite Hit.
  split; [apply dom_insert_all|]. split; [|apply size_insert_all].
  intros k v Hlast. apply last_Some in Hlast as [ops' ->].
  rewrite foldl_app. simpl. apply lookup_insert_eq.
Qed.

Lemma Cache_Set_only_grows_witness :
  lesson.Cache_mu (lesson.mkCache false (Some ∅)) = false /\
  exists c',
    Cache_Set_all [("a", []); ("b", []); ("a", [Byte.x01])]
      (lesson.mkCache false (Some ∅))
      = Some (lesson.Ok tt, c') /\
    lesson.Cache_items c' !! "a" = Some [Byte.x01] /\
    dom (lesson.Cache_items c') = {["a"; "b"]}.
Proof.
  split; [reflexivity|].
  destruct (proj2 (Cache_Set_only_grows [("a", []); ("b", []); ("a", [Byte.x01])]
                     (lesson.mkCache false (Some ∅)) eq_refl)
                  (ex_intro _ ∅ eq_refl))
    as (c' & Hrun & _ & _ & _ & Hdom & Hlast & _).
  exists c'. split; [exact Hrun|]. split; [by apply Hlast|].
  rewrite Hdom. unfold lesson.Cache_items. simpl. set_solver.
Defined.

(** X6.  [BetterCache.Set] and the map.  While somebody holds the lock
    the call waits.  With the lock free and the map nil, as in the zero
    value of the type, the assignment panics; the deferred [Unlock] has
    run and the cache is as it was.  With the lock free and a map that
    was made it stores the value under the key with the reading of the
    clock, touches no other key and not the ttl, and leaves the lock
    free.  Setting a key again replaces value and timestamp: the cache
    after two [Set]s of a key is the cache after the second alone. *)
Theorem BetterCache_Set_stores
    (key : string) (val : list Byte.byte) (now : Z) (c : lesson.BetterCache) :
  (lesson.mu c = true -> lesson.BetterCache_Set key val now c = None) /\
  (lesson.mu c = false -> lesson.items_map c = None ->
   lesson.BetterCache_Set key val now c =
     Some (lesson.Panic "assignment to entry in nil map", c)) /\
  (lesson.mu c = false -> is_Some (lesson.items_map c) ->
   exists c',
     lesson.BetterCache_Set key val now c = Some (lesson.Ok tt, c') /\
     lesson.mu c' = false /\ lesson.ttl c' = lesson.ttl c /\
     is_Some (lesson.items_map c') /\
     lesson.items c' !! key = Some (lesson.mkCacheItem val now) /\
     (forall k, k <> key -> lesson.items c' !! k = lesson.items c !! k) /\
     (forall val2 now2,
        lesson.BetterCache_Set key val2 now2 c' =
        lesson.BetterCache_Set key val2 now2 c)).
Proof.
  split; [|split].
  - intros Hmu. unfold lesson.BetterCache_Set, lesson.Lock. by rewrite Hmu.
  - apply BetterCache_Set_nil.
  - intros Hmu [tbl Htbl].
    rewrite (BetterCache_Set_lookup key val now c tbl Hmu Htbl).
    eexists. split; [reflexivity|]. split; [done|]. split; [done|].
    split; [by eexists|]. unfold lesson.items. simpl. rewrite Htbl. simpl.
    split; [apply lookup_insert_eq|].
    split; [intros k Hk; by apply lookup_insert_ne|].
    intros val2 now2.
    rewrite (BetterCache_Set_lookup key val2 now2 c tbl Hmu Htbl).
    rewrite (BetterCache_Set_lookup key val2 now2
               (lesson.mkBetterCache false
                  (Some (<[key := lesson.mkCacheItem val now]> tbl)) (lesson.ttl c))
               (<[key := lesson.mkCacheItem val now]> tbl) eq_refl eq_refl).
    simpl. by rewrite insert_insert_eq.
Qed.

(** X7.  Refreshing postpones eviction: on a cache whose map was made,
    after two [Set]s of a key, at [t0] and then at [t1], a sweep decides
    on the second timestamp alone; the entry is gone exactly when
    [now.Sub(t1)] is above the ttl, however old the first write was. *)
Theorem Set_refresh_then_sweep
    (key : string) (v0 v1 : list Byte.byte) (t0 t1 : Z)
    (t : lesson.sweep) (c : lesson.BetterCache) :
  lesson.mu c = false ->
  is_Some (lesson.items_map c) ->
  key ∈ lesson.sweep_order t ->
  exists c1 c2 c3,
    lesson.BetterCache_Set key v0 t0 c = Some (lesson.Ok tt, c1) /\
    lesson.BetterCache_Set key v1 t1 c1 = Some (lesson.Ok tt, c2) /\
    lesson.Cleanup_pass t c2 = Some c3 /\
    lesson.items c3 !! key =
      if lesson.ttl c <? lesson.Time_Sub (lesson.sweep_now t) t1 then None
      else Some (lesson.mkCacheItem v1 t1).
Proof.
  intros Hmu [tbl Htbl] Hin.
  pose proof (BetterCache_Set_lookup key v0 t0 c tbl Hmu Htbl) as H1.
  set (c1 := lesson.mkBetterCache false
               (Some (<[key := lesson.mkCacheItem v0 t0]> tbl)) (lesson.ttl c)) in H1.
  destruct (Set_then_sweep key v1 t1 t c1 eq_refl (ex_intro _ _ eq_refl) Hin)
    as (c2 & c3 & H2 & _ & _ & _ & H3 & Hl).
  exists c1, c2, c3. done.
Qed.

Lemma Set_refresh_then_sweep_witness :
  lesson.mu cache_ex = false /\
  is_Some (lesson.items_map cache_ex) /\
  exists c1 c2 c3,
    lesson.BetterCache_Set "old" [] 0 cache_ex = Some (lesson.Ok tt, c1) /\
    lesson.BetterCache_Set "old" [] 40 c1 = Some (lesson.Ok tt, c2) /\
    lesson.Cleanup_pass (lesson.mkSweep 60 ["old"]) c2 = Some c3 /\
    lesson.items c3 !! "old" = Some (lesson.mkCacheItem [] 40).
Proof.
  split; [reflexivity|]. split; [by eexists|].
  assert (Hin : "old" ∈ lesson.sweep_order (lesson.mkSweep 60 ["old"])) by (simpl; left).
  destruct (Set_refresh_then_sweep "old" [] [] 0 40 (lesson.mkSweep 60 ["old"])
              cache_ex eq_refl (ex_intro _ _ eq_refl) Hin)
    as (c1 & c2 & c3 & H1 & H2 & H3 & Hl).
  exists c1, c2, c3. split; [exact H1|]. split; [exact H2|]. split; [exact H3|].
  exact Hl.
Defined.

Section MoreSweepFacts.
Import lesson.

Lemma Time_Sub_mono (t t' u : Z) : t' <= t -> Time_Sub t' u <= Time_Sub t u.
Proof. unfold Time_Sub. lia. Qed.

Lemma Time_Sub_le_max (t u : Z) : Time_Sub t u <= maxDuration.
Proof. unfold Time_Sub, minDuration, maxDuration. lia. Qed.

End MoreSweepFacts.

(** X8.  A sweep only removes: what is in the map after a pass was in it
    before, unchanged.  And a pass over every key leaves nothing for a
    second pass that reads the same or an earlier clock: whatever the
    order of that second pass, the map stays as the first left it. *)
Theorem Cleanup_pass_only_removes
    (t t' : lesson.sweep) (c : lesson.BetterCache) :
  lesson.mu c = false ->
  lesson.sweep_order t ≡ₚ elements (dom (lesson.items c)) ->
  exists c',
    lesson.Cleanup_pass t c = Some c' /\
    lesson.items c' ⊆ lesson.items c /\
    (lesson.sweep_now t' <= lesson.sweep_now t ->
     lesson.Cleanup_pass t' c' = Some c').
Proof.
  intros Hmu Hord. rewrite (Cleanup_pass_free t c Hmu). eexists.
  split; [reflexivity|].
  assert (Hlook : forall k,
    lesson.Cleanup_range (lesson.sweep_now t) (lesson.ttl c) (lesson.sweep_order t)
      (lesson.items c) !! k =
    match lesson.items c !! k with
    | Some v => if due (lesson.sweep_now t) (lesson.ttl c) v then None else Some v
    | None => None
    end).
  { intros k. rewrite Cleanup_range_lookup.
    destruct (lesson.items c !! k) as [v|] eqn:E; [|done].
    rewrite bool_decide_eq_true_2; [done|].
    rewrite Hord. apply elem_of_elements, elem_of_dom. by eexists. }
  split.
  - unfold lesson.items at 1. cbn [lesson.items_map].
    rewrite map_entries_Cleanup_range. fold (lesson.items c).
    apply map_subseteq_spec. intros k v. rewrite Hlook.
    destruct (lesson.items c !! k) as [v'|]; [|done].
    by destruct (due _ _ v').
  - intros Hle. rewrite Cleanup_pass_free by done.
    cbn [lesson.items_map lesson.ttl]. do 2 f_equal.
    unfold lesson.items in Hlook.
    destruct (lesson.items_map c) as [tbl|]; [|done]. simpl in *. f_equal.
    apply map_eq. intros k. rewrite Cleanup_range_lookup, Hlook.
    destruct (tbl !! k) as [v|]; [|done].
    destruct (due (lesson.sweep_now t) _ v) eqn:Ed; [done|].
    assert (Hd' : due (lesson.sweep_now t') (lesson.ttl c) v = false).
    { unfold due in *. apply Z.ltb_ge. apply Z.ltb_ge in Ed.
      pose proof (Time_Sub_mono _ _ (lesson.timestamp v) Hle). lia. }
    rewrite Hd'. by rewrite andb_false_r.
Qed.

Lemma Cleanup_pass_only_removes_witness :
  lesson.mu cache_ex = false /\
  exists c',
    lesson.Cleanup_pass sweep_ex cache_ex = Some c' /\
    lesson.items c' ⊆ lesson.items cache_ex /\
    lesson.Cleanup_pass (lesson.mkSweep 55 ["new"; "old"]) c' = Some c'.
Proof.
  split; [reflexivity|].
  destruct (Cleanup_pass_only_removes sweep_ex (lesson.mkSweep 55 ["new"; "old"])
              cache_ex eq_refl (Permutation_refl _))
    as (c' & Hp & Hsub & Hagain).
  exists c'. split; [exact Hp|]. split; [exact Hsub|]. apply Hagain. simpl. lia.
Defined.

(** X9.  The sweeping goroutine over any run of ticks.  If somebody
    holds the lock when a tick arrives the goroutine waits there and has
    touched nothing.  With the lock free it serves every tick, takes and
    releases the lock for each, never returns, does nothing to the world
    of handles (it does not stop its ticker), and leaves exactly the
    entries that no tick found due when it ranged over them, each as it
    was. *)
Theorem Cleanup_func1_serves_every_tick
    (ticker : runtime.handle) (t : lesson.sweep) (ticks : list lesson.sweep)
    (c : lesson.BetterCache) (w : runtime.World) :
  (lesson.mu c = true ->
   lesson.Cleanup_func1 ticker (t :: ticks) c w = ((runtime.Parked, c), w)) /\
  (lesson.mu c = false ->
   exists c',
     lesson.Cleanup_func1 ticker ticks c w = ((runtime.Parked, c'), w) /\
     lesson.mu c' = false /\ lesson.ttl c' = lesson.ttl c /\
     forall k,
       lesson.items c' !! k =
       match lesson.items c !! k with
       | Some v => if swept_by ticks (lesson.ttl c) k v then None else Some v
       | None => None
       end).
Proof.
  split; intros Hmu.
  - unfold lesson.Cleanup_func1. cbn [lesson.Cleanup_func1_loop].
    by rewrite Cleanup_pass_locked.
  - destruct (Cleanup_func1_loop_runs ticker ticks c (runtime.mkFrame w []) Hmu)
      as (c' & Hrun & Hrest).
    exists c'. split; [|exact Hrest].
    unfold lesson.Cleanup_func1. by rewrite Hrun.
Qed.

(** X10.  The edges of the eviction test.  A cache whose ttl is the
    largest Duration never loses an entry to a sweep.  With a ttl that is
    not negative, an entry stamped at or after the clock of the sweep
    stays.  With a negative ttl, an entry stamped at the very clock of
    the sweep is removed when the range reaches it. *)
Theorem Cleanup_pass_edges (t : lesson.sweep) (c : lesson.BetterCache) :
  lesson.mu c = false ->
  exists c',
    lesson.Cleanup_pass t c = Some c' /\
    (lesson.maxDuration <= lesson.ttl c -> lesson.items c' = lesson.items c) /\
    (forall k v,
       lesson.items c !! k = Some v ->
       0 <= lesson.ttl c -> lesson.sweep_now t <= lesson.timestamp v ->
       lesson.items c' !! k = Some v) /\
    (forall k v,
       lesson.items c !! k = Some v -> k ∈ lesson.sweep_order t ->
       lesson.ttl c < 0 -> lesson.timestamp v = lesson.sweep_now t ->
       lesson.items c' !! k = None).
Proof.
  intros Hmu. rewrite (Cleanup_pass_free t c Hmu). eexists.
  split; [reflexivity|].
  assert (Hit :
    lesson.items
      (lesson.mkBetterCache false
         (lesson.Cleanup_range (lesson.sweep_now t) (lesson.ttl c)
            (lesson.sweep_order t) <$> lesson.items_map c) (lesson.ttl c)) =
    lesson.Cleanup_range (lesson.sweep_now t) (lesson.ttl c)
      (lesson.sweep_order t) (lesson.items c))
    by apply map_entries_Cleanup_range.
  rewrite Hit. split; [|split].
  - intros Hmax. apply map_eq. intros k. rewrite Cleanup_range_lookup.
    destruct (lesson.items c !! k) as [v|]; [|done].
    assert (Hd : due (lesson.sweep_now t) (lesson.ttl c) v = false).
    { unfold due. apply Z.ltb_ge.
      pose proof (Time_Sub_le_max (lesson.sweep_now t) (lesson.timestamp v)). lia. }
    rewrite Hd. by rewrite andb_false_r.
  - intros k v Hk Httl Hts. rewrite Cleanup_range_lookup, Hk.
    assert (Hd : due (lesson.sweep_now t) (lesson.ttl c) v = false).
    { unfold due. apply Z.ltb_ge. revert Httl Hts.
      unfold lesson.Time_Sub, lesson.minDuration, lesson.maxDuration. lia. }
    rewrite Hd. by rewrite andb_false_r.
  - intros k v Hk Hin Httl Hts. rewrite Cleanup_range_lookup, Hk.
    rewrite bool_decide_eq_true_2 by done.
    assert (Hd : due (lesson.sweep_now t) (lesson.ttl c) v = true).
    { unfold due. apply Z.ltb_lt. rewrite Hts. revert Httl.
      unfold lesson.Time_Sub, lesson.minDuration, lesson.maxDuration. lia. }
    by rewrite Hd.
Qed.

Lemma Cleanup_pass_edges_witness :
  lesson.mu (lesson.mkBetterCache false
               (Some {["k" := lesson.mkCacheItem [] 60]}) (-1)) = false /\
  exists c',
    lesson.Cleanup_pass (lesson.mkSweep 60 ["k"])
      (lesson.mkBetterCache false (Some {["k" := lesson.mkCacheItem [] 60]}) (-1)) =
      Some c' /\
    lesson.items c' !! "k" = None.
Proof.
  split; [reflexivity|].
  destruct (Cleanup_pass_edges (lesson.mkSweep 60 ["k"])
              (lesson.mkBetterCache false
                 (Some {["k" := lesson.mkCacheItem [] 60]}) (-1))
              eq_refl)
    as (c' & Hp & _ & _ & Hneg).
  exists c'. split; [exact Hp|].
  apply (Hneg "k" (lesson.mkCacheItem [] 60));
    [apply lookup_singleton_eq | simpl; left | simpl; lia | reflexivity].
Defined.

(** X11.  [MapLeak] returns, whatever the memory statistics read, with a
    ticker running that nothing stops: its trace is two prints around the
    creation of the ticker and the start of the sweeper, the ticker is
    live at the return, the Bad cache holds the one pair that was set and
    the Good cache is empty, both with their locks free. *)
Theorem MapLeak_leaves_ticker (alloc1 alloc2 : Z) (w : runtime.World) :
  exists loc w',
    lesson.MapLeak alloc1 alloc2 w = lesson.Ok (runtime.Returned loc, w') /\
    runtime.trace w' =
      runtime.trace w ++
      [runtime.EvPrint (pretty alloc1 +:+ lesson.nl);
       runtime.EvNewTicker (runtime.next w) runtime.time_Minute;
       runtime.EvGo "Cleanup.func1";
       runtime.EvPrint (pretty alloc2 +:+ lesson.nl)] /\
    runtime.live (runtime.trace w') =
      {[runtime.next w]} ∪ runtime.live (runtime.trace w) /\
    lesson.Cache_items (lesson.l_cache loc) =
      {["key" := String.list_byte_of_string "value"]} /\
    lesson.Cache_mu (lesson.l_cache loc) = false /\
    lesson.l_betterCache loc =
      lesson.mkBetterCache false (Some ∅) runtime.time_Minute.
Proof.
  eexists _, _. split; [reflexivity|]. simpl.
  rewrite <- !app_assoc. simpl. split; [done|].
  split; [|done]. rewrite live_app. reflexivity.
Qed.

(* ===================================================================== *)
(** * Further properties: the global cache                                *)
(* ===================================================================== *)

Section MoreGlobalFacts.
Import lesson.

Lemma global_history_lookup (ops : list global_op) (m : gmap string any)
    (key : string) :
  foldl global_step m ops !! key =
  match last_set key ops with
  | Some v => Some (any_LargeObject v)
  | None => m !! key
  end.
Proof.
  revert m. induction ops as [|o ops IH]; intros m; simpl; [done|].
  rewrite IH. destruct (last_set key ops) as [v|]; [done|].
  destruct o as [k v|ticker ticks]; simpl.
  - unfold SetGlobalCache, sync_Map_Store. destruct (decide (k = key)) as [->|Hne].
    + by rewrite lookup_insert_eq.
    + by rewrite lookup_insert_ne.
  - by rewrite cleanup_func1_same.
Qed.

End MoreGlobalFacts.

(** X12.  Over any history of [SetGlobalCache] calls and sweeps of the
    [cleanup] goroutine, started from the empty cache, [GetGlobalCache]
    of a key returns what the last [SetGlobalCache] of that key stored
    (a nil pointer included) and panics exactly when the key was never
    set; the sweeps make no difference. *)
Theorem GetGlobalCache_after_history (ops : list global_op) (key : string) :
  lesson.GetGlobalCache key (foldl global_step ∅ ops) =
  match last_set key ops with
  | Some val => lesson.Ok val
  | None =>
      lesson.Panic "interface conversion: interface {} is nil, not *lesson.LargeObject"
  end.
Proof.
  rewrite GetGlobalCache_lookup, global_history_lookup, lookup_empty.
  by destruct (last_set key ops).
Qed.

(** X13.  The global cache never shrinks: the sweeping goroutine of
    [cleanup], whatever ticks it serves and in whatever order it ranges,
    leaves the cache exactly as it was and never returns, and no history
    of sets and sweeps removes a key that was there. *)
Theorem global_cache_never_shrinks
    (ops : list global_op) (m : gmap string lesson.any)
    (ticker : runtime.handle) (ticks : list (list string)) :
  lesson.cleanup_func1 ticker ticks m = (runtime.Parked, m) /\
  dom m ⊆ dom (foldl global_step m ops) /\
  (forall key, last_set key ops = None -> foldl global_step m ops !! key = m !! key).
Proof.
  split; [apply cleanup_func1_same|]. split.
  - intros k Hk. apply elem_of_dom. rewrite global_history_lookup.
    destruct (last_set k ops); [done|]. by apply elem_of_dom.
  - intros key H. by rewrite global_history_lookup, H.
Qed.

(** X14.  [GlobalVariableLeak] does not panic, whatever the global cache
    holds when it starts: its lookup follows its own store.  It prints
    the size of the object, 1048576, and the memory reading; afterwards
    the cache holds that object of one megabyte under "key" and every
    other key as before. *)
Theorem GlobalVariableLeak_does_not_panic
    (alloc : Z) (betterCache : gmap string lesson.any) (w : runtime.World) :
  exists betterCache' w' obj,
    lesson.GlobalVariableLeak alloc betterCache w = lesson.Ok (betterCache', w') /\
    runtime.trace w' =
      runtime.trace w ++
      [runtime.EvPrint ("1048576" +:+ lesson.nl);
       runtime.EvPrint (pretty alloc +:+ lesson.nl)] /\
    lesson.GetGlobalCache "key" betterCache' = lesson.Ok (Some obj) /\
    Z.of_nat (length (lesson.data obj)) = 1048576 /\
    (forall k, k <> "key" -> betterCache' !! k = betterCache !! k).
Proof.
  unfold lesson.GlobalVariableLeak.
  set (obj := lesson.mkLargeObject _).
  assert (Hget : lesson.GetGlobalCache "key" (lesson.SetGlobalCache "key" (Some obj) betterCache)
                 = lesson.Ok (Some obj)).
  { rewrite GetGlobalCache_lookup. unfold lesson.SetGlobalCache, lesson.sync_Map_Store.
    by rewrite lookup_insert_eq. }
  rewrite Hget.
  assert (Hlen : Z.of_nat (length (lesson.data obj)) = 1048576).
  { unfold obj. cbn [lesson.data]. rewrite length_replicate.
    rewrite Z2Nat.id by lia. reflexivity. }
  eexists _, _, obj. split; [reflexivity|].
  unfold runtime.emit_w. cbn [runtime.trace]. rewrite Hlen.
  change (pretty 1048576) with "1048576".
  split; [by rewrite <- app_assoc|]. split; [exact Hget|]. split; [exact Hlen|].
  intros k Hk. unfold lesson.SetGlobalCache, lesson.sync_Map_Store.
  by rewrite lookup_insert_ne.
Qed.

(* ===================================================================== *)
(** * Further properties: goroutines, contexts and timers                 *)
(* ===================================================================== *)

Section MoreGoroutineFacts.
Import runtime lesson.

(** The loop of the Bad goroutine, tick by tick. *)
Lemma GoroutineLeak_loop_appends (ticker : handle) (ticks : list tick)
    (leakSlice : list Leak) (largeString : string) (f : Frame) :
  exists w',
    GoroutineLeak_loop ticker ticks leakSlice largeString f =
      ((Parked, leakSlice ++ map new_leak ticks), mkFrame w' (deferred f)) /\
    trace w' = trace (world f) ++ tick_events (length leakSlice) (length ticks) /\
    next w' = next (world f).
Proof.
  revert leakSlice largeString f.
  induction ticks as [|t ticks IH]; intros leakSlice largeString f.
  - exists (world f). simpl. unfold ret. rewrite !app_nil_r.
    destruct f. done.
  - cbn [GoroutineLeak_loop]. unfold bind at 1 2, log_Printf, emit, invoke.
    cbn [world deferred]. rewrite ClosureLeak_run.
    match goal with |- context [GoroutineLeak_loop ticker ticks ?l ?s ?f'] =>
      destruct (IH l s f') as (w' & Heq & Htr & Hn) end.
    exists w'. split.
    { rewrite Heq. cbn [deferred map]. by rewrite <- app_assoc. }
    split; [|exact Hn].
    rewrite Htr. unfold emit_w, tick_events. cbn [world trace length seq flat_map].
    rewrite length_app. cbn [length]. rewrite Nat.add_1_r.
    change (pretty (1024 * 1024)) with "1048576".
    by rewrite <- !app_assoc.
Qed.

Lemma tick_events_quiet (n m : nat) : Forall quiet (tick_events n m).
Proof.
  unfold tick_events. generalize (S n). induction m as [|m IH]; intros k; simpl.
  - constructor.
  - constructor; [done|]. constructor; [done|]. apply IH.
Qed.

Lemma length_tick_events (n m : nat) : length (tick_events n m) = (2 * m)%nat.
Proof.
  unfold tick_events. generalize (S n). induction m as [|m IH]; intros k; simpl.
  - done.
  - rewrite IH. lia.
Qed.

(** With the token not cancelled and nobody cancelling it, a select on
    it takes the receive when a value waits and blocks otherwise. *)
Lemma seen_uncancelled (ctx : nat) (r : round) (w : World) :
  cancel_first r = false -> seen ctx r w = w.
Proof. intros H. unfold seen. by rewrite H. Qed.

Lemma GoroutineLeakWithContext_loop_uncancelled (ctx : nat) (ticker : handle)
    (sched : list round) (w : World) (ds : list deferral) :
  ctx_Done ctx w = false -> uncancelled sched ->
  GoroutineLeakWithContext_loop ctx ticker sched (mkFrame w ds) =
    (Parked,
     mkFrame (mkWorld (next w)
                (trace w ++ map (fun _ => EvLog ("Working..." +:+ nl)) (deliveries sched))
                (tokens w)) ds).
Proof.
  intros Hd Hu. revert w Hd. induction Hu as [|r sched Hr _ IH]; intros w Hd.
  - simpl. unfold ret. rewrite app_nil_r. by destruct w.
  - rewrite GoroutineLeakWithContext_loop_cons. cbn [world deferred].
    rewrite (seen_uncancelled ctx r w Hr), Hd.
    unfold deliveries. fold (deliveries sched).
    destruct (recv r) as [v|] eqn:Er; cbn [select2].
    + rewrite filter_cons_True by (rewrite Er; by eexists).
      fold (deliveries sched). rewrite IH by done.
      unfold emit_w. cbn [next trace tokens map]. by rewrite <- app_assoc.
    + rewrite filter_cons_False by (rewrite Er; by intros [? ?]).
      fold (deliveries sched). by rewrite IH.
Qed.

(** The Good goroutine of the timer lesson, round by round. *)
Lemma TimerLeak_func2_loop_cons (ctx : nat) (timer : handle) (fired : bool)
    (r : round) (sched : list round) (f : Frame) :
  TimerLeak_func2_loop ctx timer fired (r :: sched) f =
  match select2 (if fired then None else recv r)
                (ctx_Done ctx (seen ctx r (world f))) (pick1 r) with
  | Case1 _ =>
      TimerLeak_func2_loop ctx timer true sched
        (mkFrame (emit_w (EvPrint ("Good:Done!" +:+ nl)) (seen ctx r (world f)))
                 (deferred f))
  | Case2 => (Returned tt, mkFrame (seen ctx r (world f)) (deferred f))
  | Blocked =>
      TimerLeak_func2_loop ctx timer fired sched
        (mkFrame (seen ctx r (world f)) (deferred f))
  end.
Proof.
  cbn [TimerLeak_func2_loop].
  unfold bind, deliver, select_round, fmt_Println, emit, ret, seen, spent.
  destruct fired; simpl.
  - by destruct (ctx_Done ctx _).
  - by destruct (select2 _ _ _).
Qed.

(** With nobody cancelling, the goroutine stays parked and prints for
    the first delivery of the timer only. *)
Lemma TimerLeak_func2_loop_uncancelled (ctx : nat) (timer : handle) (fired : bool)
    (sched : list round) (w : World) (ds : list deferral) :
  ctx_Done ctx w = false -> uncancelled sched ->
  TimerLeak_func2_loop ctx timer fired sched (mkFrame w ds) =
    (Parked,
     mkFrame (mkWorld (next w)
                (trace w ++
                 if fired then []
                 else map (fun _ => EvPrint ("Good:Done!" +:+ nl))
                          (take 1 (deliveries sched)))
                (tokens w)) ds).
Proof.
  intros Hd Hu. revert fired w Hd.
  induction Hu as [|r sched Hr _ IH]; intros fired w Hd.
  - simpl. unfold ret. destruct fired; simpl; rewrite app_nil_r; by destruct w.
  - rewrite TimerLeak_func2_loop_cons. cbn [world deferred].
    rewrite (seen_uncancelled ctx r w Hr), Hd.
    destruct fired; cbn [select2].
    { by rewrite IH. }
    unfold deliveries. fold (deliveries sched).
    destruct (recv r) as [v|] eqn:Er; cbn [select2].
    + rewrite filter_cons_True by (rewrite Er; by eexists).
      rewrite IH by done.
      unfold emit_w. cbn [next trace tokens map take]. by rewrite app_nil_r.
    + rewrite filter_cons_False by (rewrite Er; by intros [? ?]).
      fold (deliveries sched). by rewrite IH.
Qed.

(** The loop of the timer goroutine only prints. *)
Lemma TimerLeak_func2_loop_frame (ctx : nat) (timer : handle) (fired : bool)
    (sched : list round) (f : Frame) :
  exists res w' evs,
    TimerLeak_func2_loop ctx timer fired sched f = (res, mkFrame w' (deferred f)) /\
    next w' = next (world f) /\
    trace w' = trace (world f) ++ evs /\
    Forall quiet evs.
Proof.
  revert fired f. induction sched as [|r sched IH]; intros fired f.
  - exists Parked, (world f), []. simpl. unfold ret. rewrite app_nil_r.
    by destruct f.
  - rewrite TimerLeak_func2_loop_cons.
    destruct (seen_same ctx r (world f)) as [Hn Ht].
    destruct (select2 _ _ _).
    + destruct (IH true (mkFrame (emit_w (EvPrint ("Good:Done!" +:+ nl))
                                         (seen ctx r (world f))) (deferred f)))
        as (res & w' & evs & Heq & Hn' & Ht' & Hq).
      exists res, w', (EvPrint ("Good:Done!" +:+ nl) :: evs).
      split; [exact Heq|]. simpl in *. split; [congruence|].
      split; [by rewrite Ht', Ht, <- app_assoc|].
      constructor; [done|exact Hq].
    + exists (Returned tt), (seen ctx r (world f)), [].
      rewrite app_nil_r. done.
    + destruct (IH fired (mkFrame (seen ctx r (world f)) (deferred f)))
        as (res & w' & evs & Heq & Hn' & Ht' & Hq).
      exists res, w', evs. simpl in *.
      split; [exact Heq|]. split; [congruence|]. split; [congruence|done].
Qed.

Lemma TimerLeak_func2_loop_returns (ctx : nat) (timer : handle) (fired : bool)
    (pre post : list round) (r : round) (f : Frame) :
  is_Some (tokens (world f) !! ctx) ->
  ctx_Done ctx (world f) = true \/
    Exists (fun r' => cancel_first r' = true) (pre ++ [r]) ->
  recv r = None \/ pick1 r = false ->
  (TimerLeak_func2_loop ctx timer fired (pre ++ r :: post) f).1 = Returned tt.
Proof.
  intros Hs Hc Hr. revert fired f Hs Hc.
  induction pre as [|r0 pre IH]; intros fired f Hs Hc.
  - cbn [app] in *. rewrite TimerLeak_func2_loop_cons.
    rewrite (seen_Done ctx r (world f) Hs).
    + rewrite (proj2 (select2_cancelled _ _)); [done|].
      destruct fired; [by left|exact Hr].
    + destruct Hc as [?|Hc]; [by left|right].
      apply Exists_cons in Hc as [?|Hc]; [done|by apply Exists_nil in Hc].
  - cbn [app] in *. rewrite TimerLeak_func2_loop_cons.
    assert (Hc' : ctx_Done ctx (seen ctx r0 (world f)) = true \/
                  Exists (fun r' => cancel_first r' = true) (pre ++ [r])).
    { destruct Hc as [Hc|Hc]; [left; apply seen_Done; auto|].
      apply Exists_cons in Hc as [Hc|Hc]; [left; apply seen_Done; auto|by right]. }
    pose proof (seen_is_Some ctx r0 (world f) Hs) as Hs'.
    destruct (select2 _ _ _); [apply IH; simpl; auto|done|apply IH; simpl; auto].
Qed.

End MoreGoroutineFacts.

(** X15.  The leak of [GoroutineLeak]: its goroutine never returns, and
    every tick appends exactly one element to the package-level
    [leakSlice], built from the two random draws and the clock, keeping
    all that was there.  What the world sees after the creation of the
    ticker is, tick after tick, one log line carrying the new length of
    [leakSlice] followed by the one line a call of [ClosureLeak] prints,
    and nothing else: the loop touches no handle, so the ticker is never
    stopped. *)
Theorem GoroutineLeak_func1_appends
    (ticks : list lesson.tick) (leakSlice : list lesson.Leak) (w : runtime.World) :
  exists w' evs,
    lesson.GoroutineLeak_func1 ticks leakSlice w =
      ((runtime.Parked, leakSlice ++ map new_leak ticks), w') /\
    runtime.trace w' =
      runtime.trace w ++
      runtime.EvNewTicker (runtime.next w) runtime.time_Second :: evs /\
    evs =
      flat_map
        (fun len =>
           [runtime.EvLog (lesson.nl +:+ "Working... " +:+ pretty (Z.of_nat len));
            runtime.EvPrint ("1048576" +:+ lesson.nl)])
        (seq (S (length leakSlice)) (length ticks)) /\
    (forall w0,
       lesson.ClosureLeak w0 =
         (runtime.Returned tt,
          runtime.emit_w (runtime.EvPrint ("1048576" +:+ lesson.nl)) w0)) /\
    length evs = (2 * length ticks)%nat /\
    Forall quiet evs /\
    runtime.next w ∈ runtime.live (runtime.trace w').
Proof.
  unfold lesson.GoroutineLeak_func1.
  unfold runtime.time_NewTicker, runtime.bind at 1 2 3, runtime.fresh,
    runtime.emit, runtime.ret.
  cbn [runtime.world runtime.deferred].
  match goal with |- context [lesson.GoroutineLeak_loop ?h ticks leakSlice ?s ?f] =>
    destruct (GoroutineLeak_loop_appends h ticks leakSlice s f)
      as (w1 & Heq & Htr & _); rewrite Heq end.
  cbn [runtime.world runtime.deferred runtime.emit_w runtime.trace] in Htr.
  pose proof (tick_events_quiet (length leakSlice) (length ticks)) as Hq.
  exists w1, (tick_events (length leakSlice) (length ticks)).
  split; [reflexivity|]. rewrite Htr.
  split; [by rewrite <- !app_assoc|]. split; [reflexivity|].
  split; [intros w0; apply ClosureLeak_run|].
  split; [apply length_tick_events|]. split; [exact Hq|].
  rewrite <- !app_assoc. rewrite live_app. simpl.
  rewrite (live_quiet _ _ Hq). unfold runtime.live_step; simpl. set_solver.
Qed.

(** X16.  [GoroutineLeakWithContext] never cancels its own context: it
    parks in [select {}] with the [cancel] it deferred still pending, so
    the context stays active.  As long as nobody else cancels it, the
    goroutine it started does not return either: it logs once for every
    tick delivered, and its ticker stays running. *)
Theorem GoroutineLeakWithContext_never_cancels
    (sched : list runtime.round) (w : runtime.World) :
  uncancelled sched ->
  exists w1 w2,
    lesson.GoroutineLeakWithContext w = (runtime.Parked, w1) /\
    runtime.tokens w1 !! runtime.next w = Some (Token.new None 0) /\
    runtime.ctx_Done (runtime.next w) w1 = false /\
    lesson.GoroutineLeakWithContext_func1 (runtime.next w) sched w1 =
      (runtime.Parked, w2) /\
    runtime.trace w2 =
      runtime.trace w1 ++
      runtime.EvNewTicker (runtime.next w1) runtime.time_Second ::
      map (fun _ => runtime.EvLog ("Working..." +:+ lesson.nl)) (deliveries sched) /\
    runtime.next w1 ∈ runtime.live (runtime.trace w2).
Proof.
  intros Hu. eexists _, _. split; [reflexivity|].
  cbn [runtime.tokens runtime.next]. split; [apply lookup_insert_eq|].
  assert (Hd : forall tr n,
    runtime.ctx_Done (runtime.next w)
      (runtime.mkWorld n tr
         (<[runtime.next w := Token.new None 0]> (runtime.tokens w))) = false).
  { intros tr n. unfold runtime.ctx_Done. simpl. by rewrite lookup_insert_eq. }
  split; [apply Hd|].
  unfold lesson.GoroutineLeakWithContext_func1, runtime.call.
  unfold runtime.time_NewTicker, runtime.bind at 1 2 3 4, runtime.fresh,
    runtime.emit, runtime.defer, runtime.ret, runtime.emit_w.
  cbn [runtime.world runtime.deferred runtime.next runtime.trace runtime.tokens].
  rewrite GoroutineLeakWithContext_loop_uncancelled by (apply Hd || done).
  cbn [runtime.world runtime.trace].
  split; [reflexivity|]. cbn [runtime.trace runtime.next].
  split; [by rewrite <- !app_assoc|].
  rewrite <- !app_assoc. rewrite live_app. cbn [foldl app].
  rewrite live_quiet.
  - unfold runtime.live_step; simpl. set_solver.
  - apply Forall_forall. intros e He. apply list_elem_of_fmap in He as (? & -> & _).
    done.
Qed.

Lemma GoroutineLeakWithContext_never_cancels_witness :
  uncancelled tick_then_cancel /\
  exists w1 w2,
    lesson.GoroutineLeakWithContext runtime.World0 = (runtime.Parked, w1) /\
    lesson.GoroutineLeakWithContext_func1 0 tick_then_cancel w1 =
      (runtime.Parked, w2) /\
    1%nat ∈ runtime.live (runtime.trace w2).
Proof.
  assert (Hu : uncancelled tick_then_cancel) by (repeat constructor).
  split; [exact Hu|].
  destruct (GoroutineLeakWithContext_never_cancels tick_then_cancel runtime.World0 Hu)
    as (w1 & w2 & H1 & _ & _ & H2 & _ & Hl).
  exists w1, w2. split; [exact H1|]. split; [exact H2|].
  assert (Hn : runtime.next w1 = 1%nat).
  { change (lesson.GoroutineLeakWithContext runtime.World0)
      with (@runtime.Parked unit,
            runtime.mkWorld 1%nat [runtime.EvGo "GoroutineLeakWithContext.func1"]
              (<[0%nat := Token.new None 0]> ∅)) in H1.
    by injection H1 as <-. }
  by rewrite <- Hn.
Defined.

(** X17.  [TimerLeak] never cancels its context and never stops a
    timer: it parks in [select {}] with both deferred calls pending, and
    all the world has seen of it is the creation of the two timers and
    the start of the two goroutines.  The first goroutine returns only
    once its timer has delivered, having printed "Done!", and stops
    nothing.  As long as nobody else cancels the context, the second
    goroutine does not return: a timer delivers once, so it prints
    "Good:Done!" once if the timer's value reaches it, whatever else the
    rounds offer, and keeps waiting; it stops nothing either. *)
Theorem TimerLeak_never_cancels (sched : list runtime.round) (w : runtime.World) :
  uncancelled sched ->
  exists w1 w2,
    lesson.TimerLeak w = (runtime.Parked, w1) /\
    runtime.trace w1 =
      runtime.trace w ++
      [runtime.EvNewTimer (S (runtime.next w)) runtime.time_Hour;
       runtime.EvGo "TimerLeak.func1";
       runtime.EvNewTimer (S (S (runtime.next w))) runtime.time_Second;
       runtime.EvGo "TimerLeak.func2"] /\
    runtime.ctx_Done (runtime.next w) w1 = false /\
    (forall timer,
       lesson.TimerLeak_func1 timer None w1 = (runtime.Parked, w1) /\
       forall v,
         lesson.TimerLeak_func1 timer (Some v) w1 =
           (runtime.Returned tt,
            runtime.emit_w (runtime.EvPrint ("Done!" +:+ lesson.nl)) w1)) /\
    lesson.TimerLeak_func2 (runtime.next w) (S (S (runtime.next w))) sched w1 =
      (runtime.Parked, w2) /\
    runtime.trace w2 =
      runtime.trace w1 ++
      map (fun _ => runtime.EvPrint ("Good:Done!" +:+ lesson.nl))
          (take 1 (deliveries sched)) /\
    runtime.ctx_Done (runtime.next w) w2 = false /\
    (forall h,
       runtime.EvStop h ∈ runtime.trace w2 -> runtime.EvStop h ∈ runtime.trace w).
Proof.
  intros Hu.
  set (w1 := runtime.mkWorld (S (S (S (runtime.next w))))
               ((((runtime.trace w ++
                   [runtime.EvNewTimer (S (runtime.next w)) runtime.time_Hour]) ++
                  [runtime.EvGo "TimerLeak.func1"]) ++
                 [runtime.EvNewTimer (S (S (runtime.next w))) runtime.time_Second]) ++
                [runtime.EvGo "TimerLeak.func2"])
               (<[runtime.next w := Token.new None 0]> (runtime.tokens w))).
  assert (Hd : runtime.ctx_Done (runtime.next w) w1 = false).
  { unfold runtime.ctx_Done, w1. simpl. by rewrite lookup_insert_eq. }
  exists w1,
    (runtime.mkWorld (runtime.next w1)
       (runtime.trace w1 ++
        map (fun _ => runtime.EvPrint ("Good:Done!" +:+ lesson.nl))
            (take 1 (deliveries sched)))
       (runtime.tokens w1)).
  split; [reflexivity|].
  split; [unfold w1; cbn [runtime.trace]; by rewrite <- !app_assoc|].
  split; [exact Hd|]. split; [by intros timer|].
  split.
  { unfold lesson.TimerLeak_func2, runtime.call.
    by rewrite TimerLeak_func2_loop_uncancelled. }
  split; [done|]. split; [exact Hd|].
  intros h. cbn [runtime.trace]. unfold w1. cbn [runtime.trace].
  rewrite !elem_of_app, !list_elem_of_singleton, list_elem_of_fmap.
  intros [[[[[H|H]|H]|H]|H]|(r & H & _)]; done.
Qed.

Lemma TimerLeak_never_cancels_witness :
  uncancelled (tick_then_cancel ++ tick_then_cancel) /\
  exists w1 w2,
    lesson.TimerLeak runtime.World0 = (runtime.Parked, w1) /\
    lesson.TimerLeak_func2 0 2%nat (tick_then_cancel ++ tick_then_cancel) w1 =
      (runtime.Parked, w2) /\
    runtime.trace w2 =
      runtime.trace w1 ++ [runtime.EvPrint ("Good:Done!" +:+ lesson.nl)].
Proof.
  assert (Hu : uncancelled (tick_then_cancel ++ tick_then_cancel))
    by (repeat constructor).
  split; [exact Hu|].
  destruct (TimerLeak_never_cancels (tick_then_cancel ++ tick_then_cancel)
              runtime.World0 Hu)
    as (w1 & w2 & H1 & _ & _ & _ & H2 & Htr & _).
  exists w1, w2. split; [exact H1|]. split; [exact H2|]. exact Htr.
Defined.

(** X18.  The second goroutine of [TimerLeak] and cancellation: once its
    context is cancelled it returns at the first select at which the
    runtime does not pick a delivery of the timer.  The goroutine itself
    never stops the timer: all it has done by then is print, and the live
    handles are those it started with. *)
Theorem TimerLeak_func2_returns_when_cancelled
    (ctx : nat) (timer : runtime.handle) (w : runtime.World)
    (pre post : list runtime.round) (r : runtime.round) :
  is_Some (runtime.tokens w !! ctx) ->
  runtime.ctx_Done ctx w = true \/
    Exists (fun r' => runtime.cancel_first r' = true) (pre ++ [r]) ->
  runtime.recv r = None \/ runtime.pick1 r = false ->
  exists w' evs,
    lesson.TimerLeak_func2 ctx timer (pre ++ r :: post) w = (runtime.Returned tt, w') /\
    runtime.trace w' = runtime.trace w ++ evs /\
    Forall quiet evs /\
    runtime.live (runtime.trace w') = runtime.live (runtime.trace w).
Proof.
  intros Hs Hc Hr.
  pose proof (TimerLeak_func2_loop_returns ctx timer false pre post r
                (runtime.mkFrame w []) Hs Hc Hr) as Hret.
  destruct (TimerLeak_func2_loop_frame ctx timer false (pre ++ r :: post)
              (runtime.mkFrame w []))
    as (res & w' & evs & Heq & _ & Htr & Hq).
  rewrite Heq in Hret. cbn [fst] in Hret. subst res.
  exists w', evs. unfold lesson.TimerLeak_func2, runtime.call. rewrite Heq.
  cbn [runtime.world runtime.deferred foldl] in *.
  split; [done|]. split; [done|]. split; [done|].
  rewrite Htr, live_app. by apply live_quiet.
Qed.

Lemma TimerLeak_func2_returns_when_cancelled_witness :
  is_Some (runtime.tokens world_with_ctx !! 0%nat) /\
  exists w',
    lesson.TimerLeak_func2 0 7%nat (tick_then_cancel ++ cancel_round :: [])
      world_with_ctx = (runtime.Returned tt, w') /\
    runtime.live (runtime.trace w') = ∅.
Proof.
  assert (Hs : is_Some (runtime.tokens world_with_ctx !! 0%nat))
    by (eexists; apply lookup_singleton_eq).
  assert (Hc : runtime.ctx_Done 0 world_with_ctx = true \/
               Exists (fun r' => runtime.cancel_first r' = true)
                 (tick_then_cancel ++ [cancel_round]))
    by (right; apply Exists_app; right; constructor; reflexivity).
  split; [exact Hs|].
  destruct (TimerLeak_func2_returns_when_cancelled 0 7%nat world_with_ctx
              tick_then_cancel [] cancel_round Hs Hc (or_introl eq_refl))
    as (w' & evs & Heq & _ & _ & Hl).
  exists w'. split; [exact Heq|]. rewrite Hl. reflexivity.
Defined.

(* ===================================================================== *)
(** * Further properties: HTTP bodies, the defer loop, the slice          *)
(* ===================================================================== *)

(** X19.  What [HTTPBodyLeak] returns: nil exactly when both requests
    and both reads succeed, and otherwise the error of the first step
    that failed; nothing is attempted after a failure, so the second
    request is made only when the first request and its read succeeded. *)
Theorem HTTPBodyLeak_reports_first_failure
    (e : lesson.http_env) (w : runtime.World) :
  exists w' evs,
    lesson.HTTPBodyLeak e w = (runtime.Returned (first_failure e), w') /\
    runtime.trace w' = runtime.trace w ++ evs /\
    (first_failure e = None <->
     lesson.get1 e = None /\ (exists b, lesson.read1 e = inl b) /\
     lesson.get2 e = None /\ (exists b, lesson.read2 e = inl b)) /\
    requests evs =
      match lesson.get1 e, lesson.read1 e, lesson.get2 e with
      | Some _, _, _ => []
      | None, inr _, _ | None, inl _, Some _ => [runtime.next w]
      | None, inl _, None => [runtime.next w; S (runtime.next w)]
      end.
Proof.
  unfold lesson.HTTPBodyLeak, runtime.http_Get, runtime.io_ReadAll, first_failure.
  destruct e as [[e1|] r1 [e2|] r2]; destruct r1 as [b1|e1']; destruct r2 as [b2|e2'];
    run_call; eexists _, _; (split; [reflexivity|]);
    cbn [runtime.trace lesson.get1 lesson.read1 lesson.get2 lesson.read2];
    (split; [try reflexivity; by rewrite app_nil_r|]);
    (split; [|reflexivity]);
    (split; [try discriminate; intros _; repeat split; try done; by eexists
            | intros (H1 & [? Hr1] & H2 & [? Hr2]); try discriminate; done]).
Qed.

Section MoreDeferLoopFacts.
Import runtime lesson.

(** One call of the closure: what it opens, writes and closes. *)
Lemma DeferInLoopLeak_func1_log (i : Z) (o : file_io) (w : World) :
  exists w' evs,
    DeferInLoopLeak_func1 i o w = (Returned tt, w') /\
    trace w' = trace w ++ evs /\
    opened evs = (if open_fails o is None then [next w] else []) /\
    closed evs = opened evs /\
    next w' = (next w + length (opened evs))%nat /\
    written evs =
      match open_fails o, write_fails o with
      | None, None => ["Line " +:+ pretty i +:+ nl]
      | _, _ => []
      end.
Proof.
  unfold DeferInLoopLeak_func1, os_OpenFile, File_WriteString.
  destruct o as [[eo|] [ew|]]; run_call; eexists _, _;
    (split; [reflexivity|]); cbn [trace next open_fails write_fails];
    (split; [reflexivity|]); cbn [opened closed written omap];
    repeat split; try done; simpl; lia.
Qed.

(** The loop over any list of indices. *)
Lemma DeferInLoopLeak_loop_log (io : Z -> file_io) (idx : list Z)
    (w : World) (ds : list deferral) :
  exists w' evs,
    DeferInLoopLeak_loop io idx (mkFrame w ds) = (Returned tt, mkFrame w' ds) /\
    trace w' = trace w ++ evs /\
    written evs = map (fun i => "Line " +:+ pretty i +:+ nl) (writes io idx) /\
    opened evs = seq (next w) (length (opens io idx)) /\
    closed evs = opened evs /\
    next w' = (next w + length (opens io idx))%nat.
Proof.
  revert w. induction idx as [|i idx IH]; intros w.
  - exists w, []. simpl. unfold ret. rewrite app_nil_r.
    repeat split; try done; lia.
  - destruct (DeferInLoopLeak_func1_log i (io i) w)
      as (w1 & evs1 & Hrun & Htr1 & Ho1 & Hc1 & Hn1 & Hw1).
    destruct (IH w1) as (w' & evs & Hloop & Htr & Hw & Ho & Hc & Hn).
    exists w', (evs1 ++ evs).
    split.
    { cbn [DeferInLoopLeak_loop]. unfold bind at 1, invoke.
      cbn [world deferred]. rewrite Hrun. exact Hloop. }
    split; [by rewrite Htr, Htr1, app_assoc|].
    rewrite Ho in Hc. rewrite Ho1 in Hc1, Hn1.
    unfold written, opened, closed in *. rewrite !omap_app.
    rewrite Hw, Ho, Hc, Hn, Hw1, Hc1, Ho1.
    unfold writes, opens. rewrite (filter_cons _ i idx).
    destruct (open_fails (io i)) as [eo|] eqn:Eo.
    + rewrite decide_False by done. simpl in *. rewrite Hn1, Nat.add_0_r.
      done.
    + rewrite decide_True by done. rewrite (filter_cons _ i).
      simpl in Hn1. rewrite Hn1.
      replace (next w + 1)%nat with (S (next w)) by lia.
      destruct (write_fails (io i)) as [ew|] eqn:Ew.
      * rewrite decide_False by done. simpl.
        repeat split; try done; lia.
      * rewrite decide_True by done. simpl.
        repeat split; try done; lia.
Qed.

End MoreDeferLoopFacts.

(** X20.  What the Good loop of [DeferInLoopLeak] writes and opens: the
    lines that reach the file are "Line i" for exactly the iterations in
    which both the open and the write succeed, in increasing order of
    [i]; every successful open draws a new handle, and the handles are
    closed in the order they were opened, each exactly once. *)
Theorem DeferInLoopLeak_writes_lines
    (io : Z -> lesson.file_io) (w : runtime.World) :
  exists w' evs,
    lesson.DeferInLoopLeak io w = (runtime.Returned tt, w') /\
    runtime.trace w' = runtime.trace w ++ evs /\
    written evs =
      map (fun i => "Line " +:+ pretty i +:+ lesson.nl)
          (writes io (seqZ 0 100000)) /\
    opened evs =
      seq (runtime.next w) (length (opens io (seqZ 0 100000))) /\
    closed evs = opened evs /\
    runtime.next w' =
      (runtime.next w + length (opens io (seqZ 0 100000)))%nat.
Proof.
  destruct (DeferInLoopLeak_loop_log io (seqZ 0 100000) w [])
    as (w' & evs & Hloop & Hrest).
  exists w', evs. split; [|exact Hrest].
  unfold lesson.DeferInLoopLeak, runtime.call. by rewrite Hloop.
Qed.

Section MoreSliceFacts.
Import slices.

(** The heap [SliceLeak] leaves, for any length of at least three: the
    old arrays, then the array of [data], then the array of the copy. *)
Lemma SliceLeak_body_heap (n : Z) (h : heap) :
  3 <= n ->
  exists loc,
    lesson.SliceLeak_body n h =
      Some (loc, h ++ [replicate (Z.to_nat n) 0; [0; 0; 0]]) /\
    arr (lesson.l_data loc) = length h /\
    arr (lesson.small_bad loc) = length h /\
    off (lesson.small_bad loc) = n - 3 /\
    cap (lesson.small_bad loc) = 3 /\
    arr (lesson.small loc) = S (length h).
Proof.
  intros Hn. unfold lesson.SliceLeak_body, make, reslice_from. cbn [len arr off cap].
  assert (Hc : (0 <=? n - 3) && (n - 3 <=? n) = true).
  { apply andb_true_iff. split; apply Z.leb_le; lia. }
  rewrite Hc. cbn [mbind option_bind].
  unfold copy. cbn [len arr off cap].
  set (h1 := h ++ [replicate (Z.to_nat n) 0]).
  assert (Hsrc : elems (h1 ++ [replicate (Z.to_nat 3) 0])
                   (mkSlice (length h) (0 + (n - 3)) (n - (n - 3)) (n - (n - 3)))
                 = [0; 0; 0]).
  { unfold elems. cbn [arr off len].
    rewrite lookup_app_l by (unfold h1; rewrite length_app; simpl; lia).
    unfold h1. rewrite list_lookup_middle by done.
    cbn [default from_option]. unfold id.
    rewrite drop_replicate, take_replicate.
    replace (Z.to_nat (n - (n - 3)) `min` (Z.to_nat n - Z.to_nat (0 + (n - 3))))%nat
      with 3%nat by lia.
    reflexivity. }
  rewrite Hsrc.
  replace (Z.to_nat (3 `min` (n - (n - 3)))) with 3%nat by lia.
  unfold store. rewrite list_lookup_middle by (unfold h1; rewrite length_app; simpl; lia).
  change (Z.to_nat 0) with 0%nat. change (Z.to_nat 3) with 3%nat.
  cbn [take drop replicate length app Nat.add].
  rewrite insert_app_r_alt by lia. rewrite Nat.sub_diag. cbn [insert list_insert].
  unfold h1. rewrite <- app_assoc. cbn [app].
  eexists. split; [reflexivity|]. cbn [lesson.l_data lesson.small_bad lesson.small arr off cap].
  rewrite length_app. simpl. repeat split; lia.
Qed.

End MoreSliceFacts.

(** X21.  What [SliceLeak] does to memory: it allocates exactly two
    arrays, the million elements of [data] and the three of the copy, and
    changes no array that existed.  The Bad slice, of capacity three,
    points into the array of a million elements and so keeps all of it
    reachable; the Good copy points to the array of three. *)
Theorem SliceLeak_retains_big_array (h : slices.heap) :
  exists loc h' big,
    lesson.SliceLeak h = Some (loc, h') /\
    h' = h ++ [big; [0; 0; 0]] /\
    Z.of_nat (length big) = 1000000 /\
    h' !! slices.arr (lesson.small_bad loc) = Some big /\
    slices.cap (lesson.small_bad loc) = 3 /\
    h' !! slices.arr (lesson.small loc) = Some [0; 0; 0].
Proof.
  destruct (SliceLeak_body_heap 1000000 h) as (loc & Hrun & _ & Hbad & _ & Hcap & Hsm);
    [lia|].
  exists loc, (h ++ [replicate (Z.to_nat 1000000) 0; [0; 0; 0]]),
    (replicate (Z.to_nat 1000000) 0).
  split; [exact Hrun|]. split; [reflexivity|].
  split; [rewrite length_replicate; lia|].
  rewrite Hbad, Hsm. split; [by apply list_lookup_middle|]. split; [exact Hcap|].
  change (h ++ [replicate (Z.to_nat 1000000) 0; [0; 0; 0]])
    with (h ++ [replicate (Z.to_nat 1000000) 0] ++ [[0; 0; 0]]).
  rewrite app_assoc. apply list_lookup_middle. rewrite length_app. simpl. lia.
Qed.

Section MoreSelectFacts.
Import runtime lesson.

(** The select of the Good goroutine of the channel lesson, over any
    rounds: the frame's deferred calls and the handle counter are kept,
    and the log gains nothing, or one line for a value that was sent. *)
Lemma ChannelLeak_func2_select_log (ctx : nat) (sched : list round) (f : Frame) :
  deferred (ChannelLeak_func2_select ctx sched f).2 = deferred f /\
  next (world (ChannelLeak_func2_select ctx sched f).2) = next (world f) /\
  (trace (world (ChannelLeak_func2_select ctx sched f).2) = trace (world f) \/
   exists r val, r ∈ sched /\ recv r = Some val /\
     (ChannelLeak_func2_select ctx sched f).1 = Returned tt /\
     trace (world (ChannelLeak_func2_select ctx sched f).2) =
       trace (world f) ++ [EvPrint (pretty val +:+ nl)]) /\
  ((ChannelLeak_func2_select ctx sched f).1 = Parked ->
   Forall (fun r => recv r = None) sched /\
   trace (world (ChannelLeak_func2_select ctx sched f).2) = trace (world f)).
Proof.
  revert f. induction sched as [|r sched IH]; intros f.
  - cbn [ChannelLeak_func2_select]. unfold ret. cbn [fst snd].
    repeat split; auto.
  - rewrite ChannelLeak_func2_select_cons.
    destruct (seen_same ctx r (world f)) as [Hn Ht].
    destruct (select2 (recv r) (ctx_Done ctx (seen ctx r (world f))) (pick1 r))
      as [val| |] eqn:Es.
    + cbn [fst snd world deferred]. unfold emit_w. cbn [next trace].
      rewrite Hn, Ht. split; [done|]. split; [done|]. split; [|done].
      right. exists r, val. split; [set_solver|]. split; [|done].
      unfold select2 in Es. destruct (recv r) as [v|]; [|by destruct (ctx_Done _ _)].
      destruct (ctx_Done _ _); [destruct (pick1 r)|]; congruence.
    + cbn [fst snd world deferred]. rewrite Hn, Ht.
      split; [done|]. split; [done|]. split; [by left|done].
    + destruct (IH (mkFrame (seen ctx r (world f)) (deferred f)))
        as (Hd & Hnx & Hlog & Hpark).
      cbn [world deferred] in Hd, Hnx, Hlog, Hpark.
      rewrite Hn in Hnx. rewrite Ht in Hlog, Hpark.
      split; [exact Hd|]. split; [exact Hnx|]. split.
      * destruct Hlog as [Hlog|(r' & val & Hin & Hr & Hret & Hlog)]; [by left|].
        right. exists r', val. split; [set_solver|done].
      * intros Hp. destruct (Hpark Hp) as (Hall & Htr).
        split; [|done]. constructor; [|exact Hall].
        unfold select2 in Es. destruct (recv r); [|done].
        by destruct (ctx_Done _ _), (pick1 r).
Qed.

End MoreSelectFacts.

(** X22.  The Good goroutine of the channel lesson, over any rounds of
    its select: it opens no handle, and it prints nothing or exactly one
    line, for a value that was sent to it in one of the rounds, after
    which it has returned.  While it is still parked nothing was sent in
    any round and nothing was printed. *)
Theorem ChannelLeak_func2_prints_at_most_once (ctx : nat)
    (sched : list runtime.round) (w : runtime.World) :
  runtime.next (lesson.ChannelLeak_func2 ctx sched w).2 = runtime.next w /\
  (runtime.trace (lesson.ChannelLeak_func2 ctx sched w).2 = runtime.trace w \/
   exists r val, r ∈ sched /\ runtime.recv r = Some val /\
     (lesson.ChannelLeak_func2 ctx sched w).1 = runtime.Returned tt /\
     runtime.trace (lesson.ChannelLeak_func2 ctx sched w).2 =
       runtime.trace w ++ [runtime.EvPrint (pretty val +:+ lesson.nl)]) /\
  ((lesson.ChannelLeak_func2 ctx sched w).1 = runtime.Parked ->
   Forall (fun r => runtime.recv r = None) sched /\
   runtime.trace (lesson.ChannelLeak_func2 ctx sched w).2 = runtime.trace w).
Proof.
  destruct (ChannelLeak_func2_select_log ctx sched (runtime.mkFrame w []))
    as (Hd & Hn & Hlog & Hpark).
  cbn [runtime.world runtime.deferred] in Hd, Hn, Hlog, Hpark.
  assert (Hcall : lesson.ChannelLeak_func2 ctx sched w =
            ((lesson.ChannelLeak_func2_select ctx sched (runtime.mkFrame w [])).1,
             runtime.world
               (lesson.ChannelLeak_func2_select ctx sched (runtime.mkFrame w [])).2)).
  { unfold lesson.ChannelLeak_func2, runtime.call.
    destruct (lesson.ChannelLeak_func2_select ctx sched (runtime.mkFrame w []))
      as [[[]|] f]; cbn [fst snd] in *; [by rewrite Hd|done]. }
  rewrite Hcall. cbn [fst snd]. auto.
Qed.
